(** * Disaster-response coordination server: cache, geocoding, feeds, fan-out

    A shallow embedding of the server's service layer
    ([server/services/cache.js], [server/services/geocoding.js],
    [server/services/socialMedia.js], [server/services/gemini.js]), of the
    [POST /geocode] route and of the Socket.IO wiring of [server/index.js],
    followed by the properties the specification states about them.

    Conventions of the embedding:
    - a JavaScript string is a [string] of bytes (its UTF-8 encoding, which is
      what [Buffer.from] sees); case mapping is the ASCII one;
    - a time value is a [Z], the number of milliseconds since the epoch, as
      in ECMAScript; an ISO-8601 timestamp string stands for that number;
    - a JavaScript number that is not a time value is a binary64 [float];
    - every [new Date()] / [Date.now()] of the source is an explicit argument
      of the embedded function (the clock is an input of the server), and so
      is the server's time zone, with the offsets its rules give at each
      instant and for each wall-clock reading;
    - the Supabase table, the HTTP providers and the Socket.IO adapter are
      the environment: the table is part of the state, the providers are
      oracles collected in [Env], and what the server does to them is
      recorded in a trace of [Event]s. *)

From Stdlib Require Import ZArith String Ascii List Bool Lia.
From Stdlib Require Import PrimFloat FloatOps SpecFloat Uint63.
From stdpp Require Import base gmap strings list.

Local Open Scope string_scope.
Local Open Scope Z_scope.

#[local] Arguments String.append !s1 s2 : simpl nomatch.

(** ** JavaScript strings *)

Module JsString.

(** [String.prototype.toLowerCase], on ASCII letters. *)
Definition lowerChar (c : ascii) : ascii :=
  let n := nat_of_ascii c in
  if (Nat.leb 65 n && Nat.leb n 90)%bool then ascii_of_nat (n + 32) else c.

Fixpoint toLowerCase (s : string) : string :=
  match s with
  | EmptyString => EmptyString
  | String c s' => String (lowerChar c) (toLowerCase s')
  end.

(** [s.startsWith(t)]. *)
Fixpoint startsWith (s t : string) : bool :=
  match t, s with
  | EmptyString, _ => true
  | String _ _, EmptyString => false
  | String b t', String a s' => Ascii.eqb a b && startsWith s' t'
  end.

(** [s.includes(t)]: [t] occurs in [s] at some position. *)
Fixpoint includes (s t : string) : bool :=
  startsWith s t ||
  match s with
  | EmptyString => false
  | String _ s' => includes s' t
  end.

(** [Array.prototype.join(sep)] on an array of strings. *)
Fixpoint join (sep : string) (l : list string) : string :=
  match l with
  | [] => ""
  | [x] => x
  | x :: rest => x ++ sep ++ join sep rest
  end.

(** [s.replace(/##/g, '')]: every occurrence of two hash signs, found from
    left to right without overlap, is removed. *)
Fixpoint removeDoubleHash (s : string) : string :=
  match s with
  | String "#" (String "#" rest) => removeDoubleHash rest
  | String c rest => String c (removeDoubleHash rest)
  | EmptyString => EmptyString
  end.

(** Truthiness of a string: [""] is the only falsy one. *)
Definition truthy (s : string) : bool :=
  match s with EmptyString => false | String _ _ => true end.

(** *** [Buffer.from(s).toString('base64')] *)

Definition base64Alphabet : string :=
  "ABCDEFGHIJKLMNOPQRSTUVWXYZabcdefghijklmnopqrstuvwxyz0123456789+/".

Definition base64Char (n : N) : ascii :=
  match String.get (N.to_nat n) base64Alphabet with
  | Some c => c
  | None => "="%char
  end.

Fixpoint base64 (s : string) : string :=
  match s with
  | EmptyString => EmptyString
  | String a EmptyString =>
      let x := N_of_ascii a in
      String (base64Char (N.shiftr x 2))
        (String (base64Char (N.shiftl (N.land x 3) 4)) "==")
  | String a (String b EmptyString) =>
      let x := N_of_ascii a in
      let y := N_of_ascii b in
      String (base64Char (N.shiftr x 2))
        (String (base64Char (N.lor (N.shiftl (N.land x 3) 4) (N.shiftr y 4)))
           (String (base64Char (N.shiftl (N.land y 15) 2)) "="))
  | String a (String b (String c rest)) =>
      let x := N_of_ascii a in
      let y := N_of_ascii b in
      let z := N_of_ascii c in
      String (base64Char (N.shiftr x 2))
        (String (base64Char (N.lor (N.shiftl (N.land x 3) 4) (N.shiftr y 4)))
           (String (base64Char (N.lor (N.shiftl (N.land y 15) 2) (N.shiftr z 6)))
              (String (base64Char (N.land z 63)) (base64 rest))))
  end.

End JsString.

(** ** ECMAScript dates *)

Module JsDate.

Definition msPerSecond : Z := 1000.
Definition msPerMinute : Z := 60000.
Definition msPerHour : Z := 3600000.
Definition msPerDay : Z := 86400000.

Definition Day (t : Z) : Z := t / msPerDay.
Definition HourFromTime (t : Z) : Z := (t / msPerHour) mod 24.
Definition MinFromTime (t : Z) : Z := (t / msPerMinute) mod 60.
Definition SecFromTime (t : Z) : Z := (t / msPerSecond) mod 60.
Definition msFromTime (t : Z) : Z := t mod msPerSecond.

(** [ToIntegerOrInfinity] of a number: truncation towards zero; [None]
    stands for a non-finite argument, on which [MakeTime] answers [NaN]. *)
Definition truncate (x : float) : option Z :=
  match Prim2SF x with
  | S754_nan => None
  | S754_infinity _ => None
  | S754_zero _ => Some 0
  | S754_finite sign m e =>
      let magnitude := Z.shiftl (Z.pos m) e in
      Some (if sign then - magnitude else magnitude)
  end.

Definition MakeTime (hour : float) (min sec ms : Z) : option Z :=
  match truncate hour with
  | None => None
  | Some h => Some (h * msPerHour + min * msPerMinute + sec * msPerSecond + ms)
  end.

Definition MakeDate (day time : Z) : Z := day * msPerDay + time.

(** [TimeClip]: a time value beyond 8.64e15 ms is [NaN] (an invalid date). *)
Definition TimeClip (t : Z) : option Z :=
  if Z.abs t <=? 8640000000000000 then Some t else None.

(** The time zone of the server is ECMAScript's [LocalTZA(t, isUTC)], a
    number of milliseconds: with [isUTC = true], the offset in force at
    the instant [t]; with [isUTC = false], the offset by which the local
    time value [t] is read back as an instant (where the clocks go back a
    local time occurs twice, where they go forward some do not occur: the
    zone's rules choose). *)
Definition TimeZone : Type := Z -> bool -> Z.

Definition LocalTime (tza : TimeZone) (t : Z) : Z := t + tza t true.
Definition UTC (tza : TimeZone) (t : Z) : Z := t - tza t false.

(** [d.getHours()], an integer from 0 to 23, as the number it is. *)
Definition getHours (tza : TimeZone) (t : Z) : float :=
  PrimFloat.of_uint63 (Uint63.of_Z (HourFromTime (LocalTime tza t))).

(** [d.setHours(hour)]: the new time value of [d], [None] for an invalid
    date. Minutes, seconds and milliseconds of [d] are kept; the new hour
    is set on the local time, which is then read back as an instant. *)
Definition setHours (tza : TimeZone) (t : Z) (hour : float) : option Z :=
  let lt := LocalTime tza t in
  match MakeTime hour (MinFromTime lt) (SecFromTime lt) (msFromTime lt) with
  | None => None
  | Some time => TimeClip (UTC tza (MakeDate (Day lt) time))
  end.

End JsDate.

(** ** Values held by the cache and returned by the services *)

(** [{ lat, lng }] *)
Record Coords := { lat : float; lng : float }.

(** One social-media report of the mock feed. [timestamp] is the time value
    whose ISO string the source stores. *)
Record Report := {
  id : string;
  user : string;
  content : string;
  timestamp : Z;
  priority : string;
  location : string;
  keywords : list string
}.

(** The JSON values the server reads from and writes to the [cache.value]
    column ([jsonb]), by shape. *)
Inductive Value :=
| VNull
| VBool (b : bool)
| VNumber (x : float)
| VString (s : string)
| VCoords (c : Coords)              (* { lat, lng } *)
| VLocation (location : string)     (* { location } *)
| VReports (reports : list Report). (* [ report, ... ] *)

(** JavaScript truthiness, the test of [if (cached)]. *)
Definition truthy (v : Value) : bool :=
  match v with
  | VNull => false
  | VBool b => b
  | VNumber x => negb (PrimFloat.is_zero x || PrimFloat.is_nan x)
  | VString s => JsString.truthy s
  | VCoords _ | VLocation _ | VReports _ => true
  end.

(** ** The world the server runs in *)

(** A row of the [cache] table; [key] is its primary key, so the table is a
    finite map from keys to rows. *)
Record CacheRow := { value : Value; expires_at : Z }.

(** One named entity returned by the NER model. *)
Record Entity := { entity_group : string; word : string }.

(** What the trace records: the queries on the [cache] table, the calls of
    the two geocoding provider methods, the request to the NER model and the
    production of the mock feed. *)
Inductive Event :=
| CacheSelect (key : string)
| CacheUpsert (key : string) (row : CacheRow)
| CacheDelete (key : string)
| GeocodeWithGoogle (locationName : string)
| GeocodeWithNominatim (locationName : string)
| NerRequest (text : string)
| GenerateMockReports (tags : list string).

(** [cacheTable] is the content of the table; [reachable] says whether
    Supabase answers queries (when it does not, a query comes back with an
    [error] and changes nothing). *)
Record World := {
  cacheTable : gmap string CacheRow;
  reachable : bool
}.

(** The providers and the configuration, as seen by the server. A provider
    answers [None] when the HTTP request throws. *)
Record Env := {
  LocalTZA : JsDate.TimeZone;                           (* the server's time zone *)
  googleApiKey : option string;                         (* config.maps.googleApiKey *)
  googleGeocodeApi : string -> option (list Coords);    (* response.data.results[*].geometry.location *)
  nominatimSearchApi : string -> option (list Coords);  (* response.data[*] with lat, lon parsed *)
  nerApi : string -> option (list Entity)               (* response.data of the inference API *)
}.

(** Computations of the server: from a world to a result, the world left
    behind and the events of the run, in the order they happened. *)
Definition M (A : Type) : Type := World -> A * World * list Event.

Definition result {A} (r : A * World * list Event) : A := fst (fst r).
Definition world {A} (r : A * World * list Event) : World := snd (fst r).
Definition calls {A} (r : A * World * list Event) : list Event := snd r.

Definition ret {A} (a : A) : M A := fun w => (a, w, []).

Definition bind {A B} (c : M A) (k : A -> M B) : M B :=
  fun w =>
    let '(a, w1, calls1) := c w in
    let '(b, w2, calls2) := k a w1 in
    (b, w2, (calls1 ++ calls2)%list).

Notation "x <- c ;; k" := (bind c (fun x => k))
  (at level 100, c at next level, right associativity).
Notation "c ;;; k" := (bind c (fun _ => k))
  (at level 100, right associativity).

Definition emit (e : Event) : M unit := fun w => (tt, w, [e]).

Definition withTable (t : gmap string CacheRow) (w : World) : World :=
  {| cacheTable := t; reachable := reachable w |}.

(** *** Supabase queries on the [cache] table *)

Module Supabase.

(** [.from('cache').select('value, expires_at').eq('key', key).single()]:
    [inr data] for the one row, [inl tt] for [{ error }] (no row, or the
    service does not answer). *)
Definition selectSingle (key : string) : M (unit + CacheRow) :=
  fun w =>
    (if reachable w
     then match cacheTable w !! key with
          | Some row => inr row
          | None => inl tt
          end
     else inl tt,
     w, [CacheSelect key]).

(** [.from('cache').upsert({ key, value, expires_at })]: [true] when the
    answer carries an [error]. *)
Definition upsert (key : string) (row : CacheRow) : M bool :=
  fun w =>
    if reachable w
    then (false, withTable (<[key := row]> (cacheTable w)) w, [CacheUpsert key row])
    else (true, w, [CacheUpsert key row]).

(** [.from('cache').delete().eq('key', key)] *)
Definition deleteEq (key : string) : M unit :=
  fun w =>
    if reachable w
    then (tt, withTable (base.delete key (cacheTable w)) w, [CacheDelete key])
    else (tt, w, [CacheDelete key]).

End Supabase.

(** ** [CacheService] (server/services/cache.js) *)

Module CacheService.

Definition delete (key : string) : M unit := Supabase.deleteEq key.

(** [get(key)]; [None] is [null]. [now] is the [new Date()] of the
    expiry test. *)
Definition get (now : Z) (key : string) : M (option Value) :=
  r <- Supabase.selectSingle key ;;
  match r with
  | inl _ => ret None
  | inr data =>
      if now >? expires_at data
      then delete key ;;; ret None
      else ret (Some (value data))
  end.

(** [set(key, value, ttlHours)]; [now] is the [new Date()] the expiry is
    computed from. An invalid date makes [toISOString] throw, which the
    [catch] logs: nothing is written. *)
Definition set (E : Env) (now : Z) (key : string) (v : Value) (ttlHours : float) : M unit :=
  let tza := LocalTZA E in
  match JsDate.setHours tza now (PrimFloat.add (JsDate.getHours tza now) ttlHours) with
  | None => ret tt
  | Some expiresAt =>
      _ <- Supabase.upsert key {| value := v; expires_at := expiresAt |} ;;
      ret tt
  end.

(** The default of [ttlHours]. *)
Definition defaultTtlHours : float := 1%float.

End CacheService.

(** A [null]-or-value result passes [if (x)] when it is a truthy value. *)
Definition passes (x : option Value) : bool :=
  match x with
  | Some v => truthy v
  | None => false
  end.

(** ** [GeocodingService] (server/services/geocoding.js) *)

Module GeocodingService.

Definition cacheKey (locationName : string) : string :=
  "geocode_" ++ JsString.base64 locationName.

Definition geocodeWithGoogle (E : Env) (locationName : string) : M (option Coords) :=
  emit (GeocodeWithGoogle locationName) ;;;
  match googleApiKey E with
  | None => ret None
  | Some apiKey =>
      if negb (JsString.truthy apiKey) || String.eqb apiKey "your-google-maps-api-key"
      then ret None
      else match googleGeocodeApi E locationName with
           | Some (location :: _) => ret (Some location)
           | _ => ret None
           end
  end.

Definition geocodeWithNominatim (E : Env) (locationName : string) : M (option Coords) :=
  emit (GeocodeWithNominatim locationName) ;;;
  match nominatimSearchApi E locationName with
  | Some (location :: _) => ret (Some location)
  | _ => ret None
  end.

(** [geocodeLocation(locationName)]; [None] is [null]. [nowGet] and
    [nowSet] are the clock readings of [cache.get] and [cache.set]. *)
Definition geocodeLocation (E : Env) (nowGet nowSet : Z) (locationName : string)
  : M (option Value) :=
  cached <- CacheService.get nowGet (cacheKey locationName) ;;
  if passes cached then ret cached
  else
    result <- geocodeWithGoogle E locationName ;;
    result <- match result with
              | Some _ => ret result
              | None => geocodeWithNominatim E locationName
              end ;;
    match result with
    | Some coords =>
        CacheService.set E nowSet (cacheKey locationName) (VCoords coords)
          CacheService.defaultTtlHours ;;;
        ret (Some (VCoords coords))
    | None => ret None
    end.

End GeocodingService.

(** ** [SocialMediaService] (server/services/socialMedia.js) *)

Module SocialMediaService.

Definition cacheKey (disasterId : string) (tags : list string) : string :=
  "social_media_" ++ disasterId ++ "_" ++ JsString.join "_" tags.

(** The four mock reports; [now] is [Date.now()]. *)
Definition mockData (now : Z) : list Report :=
  [ {| id := "tweet_1"; user := "citizen1";
       content := "#floodrelief Need food in Lower East Side NYC. Shelter is full, people waiting outside.";
       timestamp := now - 2 * 60 * 60 * 1000;
       priority := "high"; location := "Lower East Side, NYC";
       keywords := ["food"; "shelter"; "need"] |};
    {| id := "tweet_2"; user := "helper_nyc";
       content := "Offering free transportation to evacuation centers from Manhattan. DM for pickup #disasterhelp";
       timestamp := now - 1 * 60 * 60 * 1000;
       priority := "medium"; location := "Manhattan, NYC";
       keywords := ["transportation"; "evacuation"; "help"] |};
    {| id := "tweet_3"; user := "emergency_nyc";
       content := "URGENT: Water levels rising in Brooklyn. Residents in flood zones please evacuate immediately #emergency";
       timestamp := now - 30 * 60 * 1000;
       priority := "urgent"; location := "Brooklyn, NYC";
       keywords := ["urgent"; "evacuation"; "emergency"] |};
    {| id := "tweet_4"; user := "medical_volunteer";
       content := "Medical team available at Central Park emergency station. First aid and basic supplies #medicalhelp";
       timestamp := now - 45 * 60 * 1000;
       priority := "medium"; location := "Central Park, NYC";
       keywords := ["medical"; "first aid"; "supplies"] |} ].

(** The predicate of the [filter] of [generateMockReports]. *)
Definition matchesTags (tags : list string) (report : Report) : bool :=
  existsb (fun tag =>
    existsb (fun keyword =>
      JsString.includes (JsString.toLowerCase keyword) (JsString.toLowerCase tag))
      (keywords report))
    tags.

(** The filtering step of [generateMockReports], on any fetched data. *)
Definition filterByTags (tags : list string) (data : list Report) : list Report :=
  if (0 <? Z.of_nat (length tags))
  then List.filter (matchesTags tags) data
  else data.

Definition generateMockReports (now : Z) (tags : list string) : list Report :=
  filterByTags tags (mockData now).

(** The TTL argument of the [cache.set] of the feed. *)
Definition socialMediaTtlHours : float := 0.5%float.

(** [fetchSocialMediaReports(disasterId, tags)]; [nowGet], [nowGen] and
    [nowSet] are the clock readings of [cache.get], of the mock data and of
    [cache.set]. *)
Definition fetchSocialMediaReports (E : Env) (nowGet nowGen nowSet : Z)
    (disasterId : string) (tags : list string) : M Value :=
  let recompute : M Value :=
    emit (GenerateMockReports tags) ;;;
    let mockReports := generateMockReports nowGen tags in
    CacheService.set E nowSet (cacheKey disasterId tags) (VReports mockReports)
      socialMediaTtlHours ;;;
    ret (VReports mockReports) in
  cached <- CacheService.get nowGet (cacheKey disasterId tags) ;;
  match cached with
  | Some v => if truthy v then ret v else recompute
  | None => recompute
  end.

Definition urgentKeywords : list string :=
  ["urgent"; "sos"; "emergency"; "help"; "trapped"; "critical"].

Definition isUrgent (report : Report) : bool :=
  let content := JsString.toLowerCase (content report) in
  existsb (fun keyword => JsString.includes content keyword) urgentKeywords.

Definition detectPriorityAlerts (reports : list Report) : list Report :=
  List.filter isUrgent reports.

End SocialMediaService.

(** ** [GeminiService.extractLocation] (server/services/gemini.js) *)

Module GeminiService.

Definition cacheKey (description : string) : string :=
  "location_extract_" ++ JsString.base64 description.

(** The value returned from the [catch] block. *)
Definition failureSentinel : string := "Location extraction failed".

Definition keptGroup (ent : Entity) : bool :=
  String.eqb (entity_group ent) "LOC" || String.eqb (entity_group ent) "ORG"
  || String.eqb (entity_group ent) "PER" || String.eqb (entity_group ent) "MISC".

Definition keptWord (w : string) : bool :=
  negb (String.eqb w "[CLS]") && negb (String.eqb w "[SEP]").

(** The phrase built from the entities of the model's answer. *)
Definition locationsOf (entities : list Entity) : string :=
  JsString.removeDoubleHash
    (JsString.join " " (List.filter keptWord (List.map word (List.filter keptGroup entities)))).

(** [extractLocation(description)]; a cache hit returns the cached value
    whatever its shape. *)
Definition extractLocation (E : Env) (nowGet nowSet : Z) (description : string) : M Value :=
  let extract : M Value :=
    emit (NerRequest description) ;;;
    match nerApi E description with
    | Some entities =>
        let locations := locationsOf entities in
        let result_data :=
          VLocation (if JsString.truthy locations then locations else "Unknown") in
        CacheService.set E nowSet (cacheKey description) result_data
          CacheService.defaultTtlHours ;;;
        ret result_data
    | None => ret (VLocation failureSentinel)
    end in
  cached <- CacheService.get nowGet (cacheKey description) ;;
  match cached with
  | Some v => if truthy v then ret v else extract
  | None => extract
  end.

End GeminiService.

(** ** [POST /geocode] (server/routes/geocoding.js) *)

Module GeocodeRoute.

(** The two fields read from [req.body]; [None] is a missing field. *)
Record Body := { description : option string; location_name : option string }.

(** Truthiness of an optional string: [undefined] and [""] are falsy. *)
Definition given (x : option string) : bool :=
  match x with
  | Some s => JsString.truthy s
  | None => false
  end.

(** [locationResult.location]: [None] is [undefined]. *)
Definition locationField (v : Value) : option string :=
  match v with
  | VLocation l => Some l
  | _ => None
  end.

Inductive Json :=
| ErrorJson (error : string)
| ExtractionFailed (error : string) (extracted_location : option string)
| GeocodeFailed (error : string) (location_name : string)
| Geocoded (original_description : option string) (extracted_location : string)
           (coordinates : Value) (timestamp : Z).

Record Response := { status : Z; json : Json }.

(** The clock readings of one request, in the order the handler takes
    them: extraction ([cache.get], [cache.set]), geocoding ([cache.get],
    [cache.set]), and the timestamp of the answer. *)
Record Clock := {
  extractGet : Z; extractSet : Z; geocodeGet : Z; geocodeSet : Z; answered : Z
}.

Definition postGeocode (E : Env) (clock : Clock) (body : Body) : M Response :=
  if negb (given (description body)) && negb (given (location_name body))
  then ret {| status := 400; json := ErrorJson "Description or location_name is required" |}
  else
    locationToGeocode <-
      match description body with
      | Some text =>
          if negb (given (location_name body)) && JsString.truthy text
          then
            locationResult <- GeminiService.extractLocation E (extractGet clock)
                                (extractSet clock) text ;;
            ret (locationField locationResult)
          else ret (location_name body)
      | None => ret (location_name body)
      end ;;
    match locationToGeocode with
    | Some loc =>
        if negb (JsString.truthy loc) || String.eqb loc "Location extraction failed"
        then ret {| status := 422;
                    json := ExtractionFailed "Could not extract location from description"
                              locationToGeocode |}
        else
          coordinates <- GeocodingService.geocodeLocation E (geocodeGet clock)
                           (geocodeSet clock) loc ;;
          match coordinates with
          | Some c =>
              if truthy c
              then ret {| status := 200;
                          json := Geocoded (description body) loc c (answered clock) |}
              else ret {| status := 422; json := GeocodeFailed "Could not geocode location" loc |}
          | None =>
              ret {| status := 422; json := GeocodeFailed "Could not geocode location" loc |}
          end
    | None =>
        ret {| status := 422;
               json := ExtractionFailed "Could not extract location from description"
                         locationToGeocode |}
    end.

End GeocodeRoute.

(** ** Socket.IO rooms (server/index.js and the emitting routes) *)

Module SocketIO.

(** The server's adapter: the connected sockets and, for every socket, the
    rooms it joined with [socket.join]. The private room Socket.IO gives
    each socket under its own id is left out: no handler addresses it. *)
Record Server := {
  connected : gset string;
  sids : gmap string (gset string)
}.

Definition init : Server := {| connected := ∅; sids := ∅ |}.

(** What clients do. *)
Inductive ClientEvent :=
| Connection (socketId : string)
| JoinDisaster (socketId : string) (disasterId : string)
| Disconnect (socketId : string).

(** The room of a disaster, [`disaster_${disasterId}`]. *)
Definition roomOf (disasterId : string) : string := "disaster_" ++ disasterId.

Definition roomsOf (io : Server) (socketId : string) : gset string :=
  default ∅ (sids io !! socketId).

(** [socket.join(room)] *)
Definition join (io : Server) (socketId room : string) : Server :=
  {| connected := connected io;
     sids := <[socketId := {[room]} ∪ roomsOf io socketId]> (sids io) |}.

(** [io.on('connection', ...)], the [join_disaster] handler it installs on
    the socket, and the disconnection, on which Socket.IO makes the socket
    leave its rooms. A socket that is not connected emits nothing. *)
Definition handle (io : Server) (e : ClientEvent) : Server :=
  match e with
  | Connection socketId =>
      {| connected := {[socketId]} ∪ connected io;
         sids := <[socketId := ∅]> (sids io) |}
  | JoinDisaster socketId disasterId =>
      if decide (socketId ∈ connected io)
      then join io socketId (roomOf disasterId)
      else io
  | Disconnect socketId =>
      {| connected := connected io ∖ {[socketId]};
         sids := base.delete socketId (sids io) |}
  end.

Definition run (events : list ClientEvent) : Server :=
  fold_left handle events init.

(** The sockets an emission reaches. [io.emit(...)] reaches every
    connected socket; [io.to(room).emit(...)] the connected sockets that
    are in [room]. *)
Definition emitAll (io : Server) : gset string := connected io.

Definition emitTo (io : Server) (room : string) : gset string :=
  filter (fun socketId => room ∈ roomsOf io socketId) (connected io).

(** The scoped emission of the routes,
    [req.io.to(`disaster_${disasterId}`).emit(...)]. *)
Definition emitToDisaster (io : Server) (disasterId : string) : gset string :=
  emitTo io (roomOf disasterId).

(** The subscription relation as the specification words it, read off the
    history of client events (the latest first): a connection is
    subscribed to a disaster when it declared interest in it and has not
    terminated since. *)
Fixpoint isConnected (history : list ClientEvent) (socketId : string) : bool :=
  match history with
  | [] => false
  | Connection s :: earlier => bool_decide (s = socketId) || isConnected earlier socketId
  | Disconnect s :: earlier => negb (bool_decide (s = socketId)) && isConnected earlier socketId
  | JoinDisaster _ _ :: earlier => isConnected earlier socketId
  end.

Fixpoint subscribed (history : list ClientEvent) (socketId disasterId : string) : bool :=
  match history with
  | [] => false
  | Connection s :: earlier =>
      negb (bool_decide (s = socketId)) && subscribed earlier socketId disasterId
  | Disconnect s :: earlier =>
      negb (bool_decide (s = socketId)) && subscribed earlier socketId disasterId
  | JoinDisaster s d :: earlier =>
      (bool_decide (s = socketId) && bool_decide (d = disasterId)
         && isConnected earlier socketId)
      || subscribed earlier socketId disasterId
  end.

End SocketIO.

(** ** Vocabulary of the properties *)

(** [keyword] contains [tag] as a substring, letter case ignored. *)
Definition containsIgnoringCase (keyword tag : string) : Prop :=
  exists pre mid post,
    keyword = pre ++ mid ++ post /\ JsString.toLowerCase mid = JsString.toLowerCase tag.

(** A reading of the server's clock: a time value an hour after which is
    still a valid date. *)
Definition clockReading (t : Z) : Prop :=
  0 <= t /\ t + JsDate.msPerHour <= 8640000000000000.

(** No change of the clocks is in the way of the hour that follows [t]:
    the wall-clock reading one hour after that of [t] is read back as the
    instant one hour after [t]. Where the clocks are put back or forward
    between the two readings the zone's rules decide, and it can fail. *)
Definition steadyClock (tza : JsDate.TimeZone) (t : Z) : Prop :=
  JsDate.UTC tza (JsDate.LocalTime tza t + JsDate.msPerHour) = t + JsDate.msPerHour.

(** Coordinates that the [jsonb] column gives back as they were written:
    JSON has no [NaN] and no infinity (they are written as [null]). *)
Definition storable (c : Coords) : bool :=
  PrimFloat.is_finite (lat c) && PrimFloat.is_finite (lng c).

(** What ECMAScript's [UTC] does with the wall-clock reading of the instant
    [t]: it is read back as [t], or, when the reading occurs twice (the hour
    repeated where the clocks go back), as the earlier of the two instants,
    which is less than a day before. *)
Definition readBack (tza : JsDate.TimeZone) (t : Z) : Prop :=
  t - JsDate.msPerDay <= JsDate.UTC tza (JsDate.LocalTime tza t) <= t.

(** A string without the separator of the feed's cache key. *)
Fixpoint underscoreFree (s : string) : bool :=
  match s with
  | EmptyString => true
  | String c s' => negb (Ascii.eqb c "_") && underscoreFree s'
  end.

(** A tag that is not empty and has no underscore. *)
Definition plainTag (tag : string) : bool :=
  JsString.truthy tag && underscoreFree tag.

(** The events that are calls of a geocoding provider method. *)
Definition isProviderCall (e : Event) : bool :=
  match e with
  | GeocodeWithGoogle _ | GeocodeWithNominatim _ => true
  | _ => false
  end.

(** ** Sample inputs *)

Module Sample.

(** A server on UTC with a Google key. Google knows "Wall Street" only,
    Nominatim knows "Brooklyn" only and is down for "Atlantis"; the NER
    model finds a place in one text, a person in another, nothing in
    "hello", and fails on anything else. *)
Definition env : Env := {|
  LocalTZA := fun _ _ => 0;
  googleApiKey := Some "AIza-sample";
  googleGeocodeApi := fun locationName =>
    if String.eqb locationName "Wall Street"
    then Some [ {| lat := 40.5%float; lng := (-74)%float |} ]
    else Some [];
  nominatimSearchApi := fun locationName =>
    if String.eqb locationName "Brooklyn"
    then Some [ {| lat := 40.75%float; lng := (-73.875)%float |} ]
    else if String.eqb locationName "Atlantis" then None
    else Some [];
  nerApi := fun text =>
    if String.eqb text "Heavy flooding near Wall Street"
    then Some [ {| entity_group := "LOC"; word := "Wall" |};
                {| entity_group := "LOC"; word := "Street" |} ]
    else if String.eqb text "John needs help"
    then Some [ {| entity_group := "PER"; word := "John" |} ]
    else if String.eqb text "hello" then Some []
    else None
|}.

(** The clocks of New York around 2023-11-05T06:00:00Z, when they went back
    from 02:00 (UTC-4) to 01:00 (UTC-5): the wall-clock hour from 01:00 to
    02:00 occurred twice and is read back as its first occurrence. *)
Definition clocksBack : Z := 1699164000000.

Definition newYork : JsDate.TimeZone :=
  fun t isUTC =>
    if isUTC
    then if t <? clocksBack then -4 * JsDate.msPerHour else -5 * JsDate.msPerHour
    else if t <? clocksBack - 4 * JsDate.msPerHour
         then -4 * JsDate.msPerHour else -5 * JsDate.msPerHour.

(** Half past one in New York that night: in the hour before the clocks
    went back, and in the hour that occurred for the second time (and one
    minute later). *)
Definition before0 : Z := clocksBack - 1800000.
Definition repeated0 : Z := clocksBack + 1800000.
Definition repeated1 : Z := clocksBack + 1860000.

(** The sample server, in New York. *)
Definition newYorkEnv : Env := {|
  LocalTZA := newYork;
  googleApiKey := googleApiKey env;
  googleGeocodeApi := googleGeocodeApi env;
  nominatimSearchApi := nominatimSearchApi env;
  nerApi := nerApi env
|}.

Definition emptyWorld : World := {| cacheTable := ∅; reachable := true |}.

(** One row, expiring at time 1000. *)
Definition row : CacheRow := {| value := VString "v"; expires_at := 1000 |}.

Definition oneRowWorld : World :=
  {| cacheTable := {[ "k" := row ]}; reachable := true |}.

(** 2023-11-14T22:13:20Z, and one minute later. *)
Definition t0 : Z := 1700000000000.
Definition t1 : Z := 1700000060000.

Definition clock : GeocodeRoute.Clock :=
  {| GeocodeRoute.extractGet := t0; GeocodeRoute.extractSet := t0;
     GeocodeRoute.geocodeGet := t0; GeocodeRoute.geocodeSet := t0;
     GeocodeRoute.answered := t0 |}.

Definition byDescription (text : string) : GeocodeRoute.Body :=
  {| GeocodeRoute.description := Some text; GeocodeRoute.location_name := None |}.

End Sample.

(** ** Vocabulary of the further properties *)

(** The values of a sextet. *)
Definition sextets : list N := List.map N.of_nat (seq 0 64).

(** A string without the character [sep]. *)
Fixpoint freeOf (sep : ascii) (s : string) : bool :=
  match s with
  | EmptyString => true
  | String c s' => negb (Ascii.eqb c sep) && freeOf sep s'
  end.

(** ** [GET /disasters/:id/social-media] (server/routes/socialMedia.js) *)

Module SocialMediaRoute.

(** [tags.split(',')]: the pieces between the separators, at least one. *)
Fixpoint split (sep : ascii) (s : string) : list string :=
  match s with
  | EmptyString => [""]
  | String c s' =>
      if Ascii.eqb c sep then "" :: split sep s'
      else match split sep s' with
           | piece :: pieces => String c piece :: pieces
           | [] => [String c ""]
           end
  end.

(** The payload of a [social_media_updated] event. *)
Record Update := {
  disaster_id : string;
  reports : list Report;
  priority_alerts : list Report
}.

(** An emission [req.io.to(room).emit('social_media_updated', payload)]. *)
Record Emission := { room : string; payload : Update }.

(** The answers of the handler: 404, 200 and the 500 of its [catch]. *)
Inductive Answer :=
| NotFound (error : string)
| Feed (update : Update) (last_updated : Z)
| ServerError.

(** The clock readings of one request: the feed's [cache.get], mock data and
    [cache.set], and the timestamp of the answer. *)
Record Clock := { feedGet : Z; feedGen : Z; feedSet : Z; answered : Z }.

(** The handler. [tags] is [req.query.tags]. [disaster] is what the query
    on the [disasters] table gave: [None] for an error or no row, else the
    row's [tags], which may be [null]. A feed that is not an array (a cached
    value of another shape) makes [reports.filter] throw: the handler's
    [catch] answers 500. *)
Definition getSocialMedia (E : Env) (clock : Clock) (disasterId : string)
    (tags : option string) (disaster : option (option (list string)))
  : M (Answer * list Emission) :=
  match disaster with
  | None => ret (NotFound "Disaster not found", [])
  | Some storedTags =>
      let searchTags :=
        match tags with
        | Some query =>
            if JsString.truthy query then split "," query else default [] storedTags
        | None => default [] storedTags
        end in
      fetched <- SocialMediaService.fetchSocialMediaReports E (feedGet clock)
                   (feedGen clock) (feedSet clock) disasterId searchTags ;;
      match fetched with
      | VReports found =>
          let update := {| disaster_id := disasterId; reports := found;
                           priority_alerts := SocialMediaService.detectPriorityAlerts found |} in
          ret (Feed update (answered clock),
               if 0 <? Z.of_nat (length found)
               then [ {| room := SocketIO.roomOf disasterId; payload := update |} ]
               else [])
      | _ => ret (ServerError, [])
      end
  end.

End SocialMediaRoute.

(** ** [authenticateUser] (server/middleware/middleware.js) *)

Module Middleware.

(** [req.user]: the object found under the header's value. Its [id] and
    [role] are [None] ([undefined]) when the object is not one of the mock
    users. *)
Record User := { id : option string; role : option string }.

Definition mockUser (name role : string) : User :=
  {| id := Some name; role := Some role |}.

(** The own properties of the [mockUsers] object. *)
Definition mockUsers : list (string * User) :=
  [ ("netrunnerX", mockUser "netrunnerX" "admin");
    ("reliefAdmin", mockUser "reliefAdmin" "admin");
    ("citizen1", mockUser "citizen1" "contributor") ].

(** The properties every object literal inherits from [Object.prototype];
    each is a function or an object, hence truthy, with no [id] or [role]. *)
Definition inherited : list string :=
  [ "constructor"; "__defineGetter__"; "__defineSetter__"; "hasOwnProperty";
    "__lookupGetter__"; "__lookupSetter__"; "isPrototypeOf";
    "propertyIsEnumerable"; "toString"; "valueOf"; "__proto__"; "toLocaleString" ].

Fixpoint ownProperty (props : list (string * User)) (name : string) : option User :=
  match props with
  | [] => None
  | (key, user) :: rest => if String.eqb key name then Some user else ownProperty rest name
  end.

(** [mockUsers[userId]]; [None] is [undefined]. *)
Definition lookup (userId : string) : option User :=
  match ownProperty mockUsers userId with
  | Some user => Some user
  | None =>
      if existsb (String.eqb userId) inherited
      then Some {| id := None; role := None |}
      else None
  end.

(** [authenticateUser]: [header] is [req.headers['x-user-id']]; the result
    is [req.user] when [next()] is called and [None] for the 401 answer. *)
Definition authenticateUser (header : option string) : option User :=
  let userId :=
    match header with
    | Some value => if JsString.truthy value then value else "netrunnerX"
    | None => "netrunnerX"
    end in
  lookup userId.

End Middleware.

(** ** [PUT] and [DELETE /disasters/:id] (server/routes/disasters.js) *)

Module DisasterRoutes.

Record AuditEntry := {
  action : string;
  user_id : option string;
  timestamp : Z;
  changes : option (list string)
}.

(** A row of the [disasters] table, as far as the handlers read it. An
    [audit_trail] of [None] is a [null] column. *)
Record Disaster := {
  id : string;
  title : string;
  location_name : string;
  description : string;
  tags : list string;
  owner_id : string;
  audit_trail : option (list AuditEntry)
}.

(** The fields of the body of a [PUT]: [None] is an absent field. *)
Record Changes := {
  newTitle : option string;
  newLocationName : option string;
  newDescription : option string;
  newTags : option (list string)
}.

(** The object passed to [.update(...)]. *)
Record UpdateData := {
  fields : Changes;
  new_audit_trail : list AuditEntry
}.

(** [io.emit('disaster_updated', { action, disaster })]; the disaster is
    [None] when the database returned no row ([data[0]] undefined). *)
Record Emission := { emitted_action : string; emitted_disaster : option Disaster }.

Inductive Answer :=
| Status (code : Z) (error : string)      (* 403, 404 and 500 with their message *)
| Caught                                  (* 500 with the message of a thrown error *)
| Updated (disaster : option Disaster)    (* 200, [data[0]] *)
| NoContent.                              (* 204 *)

(** What a handler did: its answer, the write it sent to the table, if any,
    and the events it emitted. *)
Record Outcome (W : Type) := {
  answer : Answer;
  written : option W;
  emitted : list Emission
}.
Arguments answer {W}.
Arguments written {W}.
Arguments emitted {W}.

(** [existing.owner_id !== req.user.id && req.user.role !== 'admin'] *)
Definition denied (existing : Disaster) (user : Middleware.User) : bool :=
  negb (bool_decide (Middleware.id user = Some (owner_id existing)))
  && negb (bool_decide (Middleware.role user = Some "admin")).

(** [x !== undefined] *)
Definition defined {A} (x : option A) : bool :=
  match x with
  | Some _ => true
  | None => false
  end.

(** [Object.keys(updateData)] before the audit trail is added. *)
Definition changedKeys (c : Changes) : list string :=
  ((if defined (newTitle c) then ["title"] else [])
   ++ (if defined (newLocationName c) then ["location_name"] else [])
   ++ (if defined (newDescription c) then ["description"] else [])
   ++ (if defined (newTags c) then ["tags"] else []))%list.

(** [router.put('/:id', authenticateUser, ...)], after the middleware.
    [existing] is the row read first ([None]: error or no row), [dbUpdate]
    is the answer of the database to the update ([inl] an error message,
    [inr] the rows returned), [now] the time of the audit entry. A [null]
    audit trail cannot be spread: the handler's [catch] answers 500. *)
Definition putDisaster (user : Middleware.User) (now : Z) (body : Changes)
    (existing : option Disaster) (dbUpdate : UpdateData -> string + list Disaster)
  : Outcome UpdateData :=
  match existing with
  | None => {| answer := Status 404 "Disaster not found"; written := None; emitted := [] |}
  | Some row =>
      if denied row user
      then {| answer := Status 403 "Access denied"; written := None; emitted := [] |}
      else
        match audit_trail row with
        | None =>
            {| answer := Caught; written := None; emitted := [] |}
        | Some trail =>
            let newAuditEntry :=
              {| action := "update"; user_id := Middleware.id user; timestamp := now;
                 changes := Some (changedKeys body) |} in
            let updateData :=
              {| fields := body; new_audit_trail := (trail ++ [newAuditEntry])%list |} in
            match dbUpdate updateData with
            | inl message =>
                {| answer := Status 500 message; written := Some updateData; emitted := [] |}
            | inr data =>
                {| answer := Updated (head data); written := Some updateData;
                   emitted := [ {| emitted_action := "update";
                                   emitted_disaster := head data |} ] |}
            end
        end
  end.

(** [router.delete('/:id', authenticateUser, ...)], after the middleware.
    [dbDelete] is the error of the deletion, if any; the write recorded is
    the id deleted. *)
Definition deleteDisaster (user : Middleware.User) (disasterId : string)
    (existing : option Disaster) (dbDelete : option string)
  : Outcome string :=
  match existing with
  | None => {| answer := Status 404 "Disaster not found"; written := None; emitted := [] |}
  | Some row =>
      if denied row user
      then {| answer := Status 403 "Access denied"; written := None; emitted := [] |}
      else
        match dbDelete with
        | Some message =>
            {| answer := Status 500 message; written := Some disasterId; emitted := [] |}
        | None =>
            {| answer := NoContent; written := Some disasterId;
               emitted := [ {| emitted_action := "delete"; emitted_disaster := Some row |} ] |}
        end
  end.

End DisasterRoutes.

(** ** More sample inputs *)

Module MoreSamples.

(** Supabase does not answer. *)
Definition downWorld : World :=
  {| cacheTable := {[ "k" := Sample.row ]}; reachable := false |}.

(** The sample server with the placeholder instead of a Google key, and a
    Nominatim that knows "Wall Street". *)
Definition noKeyEnv : Env := {|
  LocalTZA := LocalTZA Sample.env;
  googleApiKey := Some "your-google-maps-api-key";
  googleGeocodeApi := googleGeocodeApi Sample.env;
  nominatimSearchApi := fun locationName =>
    if String.eqb locationName "Wall Street"
    then Some [ {| lat := 40.75%float; lng := (-74.125)%float |} ]
    else Some [];
  nerApi := nerApi Sample.env
|}.

(** A request that names its location and also carries a description. *)
Definition named : GeocodeRoute.Body :=
  {| GeocodeRoute.description := Some "Heavy flooding near Wall Street";
     GeocodeRoute.location_name := Some "Brooklyn" |}.

(** A disaster of [citizen1] with one audit entry. *)
Definition created : DisasterRoutes.AuditEntry :=
  {| DisasterRoutes.action := "create"; DisasterRoutes.user_id := Some "citizen1";
     DisasterRoutes.timestamp := Sample.t0; DisasterRoutes.changes := None |}.

Definition flood : DisasterRoutes.Disaster :=
  {| DisasterRoutes.id := "d1"; DisasterRoutes.title := "NYC Flood";
     DisasterRoutes.location_name := "Manhattan, NYC";
     DisasterRoutes.description := "Heavy flooding in Manhattan";
     DisasterRoutes.tags := ["flood"; "urgent"];
     DisasterRoutes.owner_id := "citizen1";
     DisasterRoutes.audit_trail := Some [created] |}.

Definition retitle : DisasterRoutes.Changes :=
  {| DisasterRoutes.newTitle := Some "NYC Flood, day 2";
     DisasterRoutes.newLocationName := None;
     DisasterRoutes.newDescription := None;
     DisasterRoutes.newTags := Some ["flood"] |}.

(** A database that accepts every update and returns the row. *)
Definition accepting (data : DisasterRoutes.UpdateData)
  : string + list DisasterRoutes.Disaster := inr [flood].

Definition citizen1 : Middleware.User := Middleware.mockUser "citizen1" "contributor".

End MoreSamples.

(** * Properties *)

(** ** Strings *)

Section StringFacts.

Import JsString.

Lemma startsWith_spec (s t : string) :
  startsWith s t = true <-> exists post, s = t ++ post.
Proof.
  revert s. induction t as [|b t IH]; intros s.
  - split; [intros _; now exists s | intros _; now destruct s].
  - destruct s as [|a s]; simpl.
    + split; [discriminate | intros [post H]; discriminate].
    + rewrite andb_true_iff, IH. split.
      * intros [Hab [post ->]]. apply Ascii.eqb_eq in Hab. subst. now exists post.
      * intros [post H]. injection H as -> ->. split; [apply Ascii.eqb_refl | now exists post].
Qed.

(** [includes] decides the substring relation. *)
Lemma includes_spec (s t : string) :
  includes s t = true <-> exists pre post, s = pre ++ t ++ post.
Proof.
  induction s as [|a s IH].
  - cbn [includes]. rewrite orb_false_r, startsWith_spec. split.
    + intros [post H]. now exists "", post.
    + intros [pre [post H]]. destruct pre; [now exists post | discriminate].
  - cbn [includes]. rewrite orb_true_iff, startsWith_spec, IH. split.
    + intros [[post H] | [pre [post H]]].
      * now exists "", post.
      * exists (String a pre), post. simpl. now rewrite H.
    + intros [pre [post H]]. destruct pre as [|x pre].
      * left. now exists post.
      * right. simpl in H. injection H as _ H. now exists pre, post.
Qed.

Lemma toLowerCase_app (a b : string) :
  toLowerCase (a ++ b) = toLowerCase a ++ toLowerCase b.
Proof. induction a as [|x a IH]; simpl; [reflexivity | now rewrite IH]. Qed.

Lemma toLowerCase_split (s a b : string) :
  toLowerCase s = a ++ b ->
  exists a' b', s = a' ++ b' /\ toLowerCase a' = a /\ toLowerCase b' = b.
Proof.
  revert s. induction a as [|x a IH]; intros s H.
  - exists "", s. auto.
  - destruct s as [|c s]; [discriminate|]. simpl in H. injection H as Hx H.
    destruct (IH _ H) as (a' & b' & -> & Ha & Hb).
    exists (String c a'), b'. simpl. now rewrite Hx, Ha.
Qed.

Lemma includes_toLowerCase (keyword tag : string) :
  includes (toLowerCase keyword) (toLowerCase tag) = true
  <-> containsIgnoringCase keyword tag.
Proof.
  rewrite includes_spec. split.
  - intros (pre & post & H).
    apply toLowerCase_split in H as (pre' & rest & -> & _ & H).
    apply toLowerCase_split in H as (mid & post' & -> & Hmid & _).
    now exists pre', mid, post'.
  - intros (pre & mid & post & -> & H).
    exists (toLowerCase pre), (toLowerCase post).
    now rewrite !toLowerCase_app, H.
Qed.

End StringFacts.

Example toLowerCase_urgent :
  JsString.toLowerCase "URGENT: Water #1" = "urgent: water #1".
Proof. reflexivity. Qed.

Example includes_flood : JsString.includes "floodrelief" "flood" = true.
Proof. reflexivity. Qed.

Example includes_not : JsString.includes "shelter" "medical" = false.
Proof. reflexivity. Qed.

Example join_three : JsString.join "_" ["a"; "b"; "c"] = "a_b_c".
Proof. reflexivity. Qed.

Example removeDoubleHash_word : JsString.removeDoubleHash "Man ##hat ##tan" = "Man hat tan".
Proof. reflexivity. Qed.

Example base64_Unknown : JsString.base64 "Unknown" = "VW5rbm93bg==".
Proof. reflexivity. Qed.

Example base64_Wall_Street : JsString.base64 "Wall Street" = "V2FsbCBTdHJlZXQ=".
Proof. reflexivity. Qed.

Example setHours_half_hour :
  JsDate.setHours (fun _ _ => 0) 1700000000000
    (PrimFloat.add (JsDate.getHours (fun _ _ => 0) 1700000000000) 0.5%float)
  = Some 1700000000000.
Proof. vm_compute. reflexivity. Qed.

Example setHours_one_hour :
  JsDate.setHours (fun _ _ => 0) 1700000000000
    (PrimFloat.add (JsDate.getHours (fun _ _ => 0) 1700000000000) 1%float)
  = Some 1700003600000.
Proof. vm_compute. reflexivity. Qed.

Example setHours_over_midnight :
  JsDate.setHours (fun _ _ => 19800000) 1700000000000
    (PrimFloat.add (JsDate.getHours (fun _ _ => 19800000) 1700000000000) 21.75%float)
  = Some 1700075600000.
Proof. vm_compute. reflexivity. Qed.

(** In New York at 01:30 (UTC-4) of the night the clocks went back, one hour
    ahead on the wall clock is 02:30 (UTC-5), two hours later. *)
Example setHours_one_hour_clocks_back :
  let now := Sample.clocksBack - 1800000 in
  JsDate.setHours Sample.newYork now
    (PrimFloat.add (JsDate.getHours Sample.newYork now) 1%float)
  = Some (now + 2 * 3600000).
Proof. vm_compute. reflexivity. Qed.

(** At 01:30 (UTC-5) of that night, the hour set again as it is gives 01:30
    (UTC-4), one hour earlier. *)
Example setHours_half_hour_repeated :
  let now := Sample.clocksBack + 1800000 in
  JsDate.setHours Sample.newYork now
    (PrimFloat.add (JsDate.getHours Sample.newYork now) 0.5%float)
  = Some (now - 3600000).
Proof. vm_compute. reflexivity. Qed.

Example locationsOf_manhattan :
  GeminiService.locationsOf
    [ {| entity_group := "LOC"; word := "Man" |};
      {| entity_group := "LOC"; word := "##hattan" |};
      {| entity_group := "O"; word := "flood" |} ] = "Man hattan".
Proof. reflexivity. Qed.


(** ** Tag filter and priority alerts of the feed *)

Section Feed.

Import SocialMediaService.

Lemma matchesTags_spec (tags : list string) (report : Report) :
  matchesTags tags report = true
  <-> exists keyword tag,
        In keyword (keywords report) /\ In tag tags /\ containsIgnoringCase keyword tag.
Proof.
  unfold matchesTags. rewrite existsb_exists. split.
  - intros (tag & Htag & H). apply existsb_exists in H as (keyword & Hk & H).
    apply includes_toLowerCase in H. now exists keyword, tag.
  - intros (keyword & tag & Hk & Htag & H). exists tag. split; [assumption|].
    apply existsb_exists. exists keyword. split; [assumption|].
    now apply includes_toLowerCase.
Qed.

Lemma filterByTags_spec (tags : list string) (data : list Report) (report : Report) :
  In report (filterByTags tags data)
  <-> In report data /\
      (tags = [] \/
       exists keyword tag,
         In keyword (keywords report) /\ In tag tags /\ containsIgnoringCase keyword tag).
Proof.
  unfold filterByTags. destruct tags as [|t tags].
  - simpl. tauto.
  - replace (0 <? Z.of_nat (length (t :: tags))) with true
      by (symmetry; apply Z.ltb_lt; simpl length; lia).
    rewrite filter_In, matchesTags_spec. split.
    + intros [H1 H2]. auto.
    + intros [H1 [H2 | H2]]; [discriminate | auto].
Qed.

(** C7. With a non-empty tag list the feed keeps a fetched item iff one of
    its keywords contains, letter case ignored, one of the requested tags
    as a substring; with the empty tag list the fetched items are returned
    unfiltered. *)
Theorem tag_filter_semantics (now : Z) (tags : list string) (report : Report) :
  (In report (generateMockReports now tags)
   <-> In report (mockData now) /\
       (tags = [] \/
        exists keyword tag,
          In keyword (keywords report) /\ In tag tags /\ containsIgnoringCase keyword tag))
  /\ generateMockReports now [] = mockData now.
Proof.
  split; [apply filterByTags_spec | reflexivity].
Qed.

Example filter_foo (now : Z) :
  List.map id (generateMockReports now ["foo"]) = ["tweet_1"].
Proof. reflexivity. Qed.

Example filter_medical (now : Z) :
  List.map id (generateMockReports now ["medical"]) = ["tweet_4"].
Proof. reflexivity. Qed.

Example filter_upper_case (now : Z) :
  List.map id (generateMockReports now ["EVAC"; "Aid"]) = ["tweet_2"; "tweet_3"; "tweet_4"].
Proof. reflexivity. Qed.

Lemma isUrgent_help (report : Report) :
  JsString.includes (JsString.toLowerCase (content report)) "help" = true ->
  isUrgent report = true.
Proof.
  intros H. unfold isUrgent, urgentKeywords. cbn [existsb].
  rewrite H. now rewrite !orb_true_r.
Qed.

(** C10. ["help"] is one of the six urgency keywords: a report whose
    content contains "help", letter case ignored, is among the alerts; and
    the alerts are a subsequence of the reports, in their order. *)
Theorem priority_alerts_help (reports : list Report) :
  urgentKeywords = ["urgent"; "sos"; "emergency"; "help"; "trapped"; "critical"]
  /\ (forall report,
        In report reports ->
        containsIgnoringCase (content report) "help" ->
        In report (detectPriorityAlerts reports))
  /\ detectPriorityAlerts reports `sublist_of` reports.
Proof.
  split; [reflexivity | split].
  - intros report Hin H. unfold detectPriorityAlerts. apply filter_In.
    split; [assumption|]. apply isUrgent_help.
    now apply (includes_toLowerCase (content report) "help").
  - unfold detectPriorityAlerts. induction reports as [|r rs IH]; simpl.
    + constructor.
    + destruct (isUrgent r); [now apply sublist_skip | now apply sublist_cons].
Qed.

Example alerts_of_mock_feed (now : Z) :
  List.map id (detectPriorityAlerts (mockData now)) = ["tweet_2"; "tweet_3"; "tweet_4"].
Proof. reflexivity. Qed.

End Feed.

(** ** Dates: what [setHours(getHours() + ttlHours)] computes *)

Section DateFacts.

Import JsDate.

Lemma HourFromTime_range (t : Z) : 0 <= HourFromTime t < 24.
Proof. unfold HourFromTime. apply Z.mod_pos_bound. lia. Qed.

(** A time value is the sum of its day, hour, minute, second and
    millisecond components. *)
Lemma time_components (t : Z) :
  t = MakeDate (Day t)
        (HourFromTime t * msPerHour + MinFromTime t * msPerMinute
         + SecFromTime t * msPerSecond + msFromTime t).
Proof.
  unfold MakeDate, Day, HourFromTime, MinFromTime, SecFromTime, msFromTime,
    msPerDay, msPerHour, msPerMinute, msPerSecond.
  assert (H1 : t / 60000 = t / 1000 / 60) by (rewrite Z.div_div; [reflexivity | lia | lia]).
  assert (H2 : t / 3600000 = t / 60000 / 60) by (rewrite Z.div_div; [reflexivity | lia | lia]).
  assert (H3 : t / 86400000 = t / 3600000 / 24) by (rewrite Z.div_div; [reflexivity | lia | lia]).
  pose proof (Z.div_mod t 1000 ltac:(lia)).
  pose proof (Z.div_mod (t / 1000) 60 ltac:(lia)).
  pose proof (Z.div_mod (t / 60000) 60 ltac:(lia)).
  pose proof (Z.div_mod (t / 3600000) 24 ltac:(lia)).
  rewrite H3. rewrite H2 in *. rewrite H1 in *. lia.
Qed.

Ltac hours h H :=
  assert (h = 0 \/ h = 1 \/ h = 2 \/ h = 3 \/ h = 4 \/ h = 5 \/ h = 6 \/ h = 7
          \/ h = 8 \/ h = 9 \/ h = 10 \/ h = 11 \/ h = 12 \/ h = 13 \/ h = 14
          \/ h = 15 \/ h = 16 \/ h = 17 \/ h = 18 \/ h = 19 \/ h = 20 \/ h = 21
          \/ h = 22 \/ h = 23) as Hcases by lia;
  clear H; repeat destruct Hcases as [-> | Hcases]; try subst h.

(** Adding half an hour to the hour of the day does not change the
    integer [MakeTime] takes from it. *)
Lemma truncate_plus_half (h : Z) :
  0 <= h < 24 ->
  truncate (PrimFloat.add (PrimFloat.of_uint63 (Uint63.of_Z h)) 0.5%float) = Some h.
Proof. intros H. hours h H; vm_compute; reflexivity. Qed.

Lemma truncate_plus_one (h : Z) :
  0 <= h < 24 ->
  truncate (PrimFloat.add (PrimFloat.of_uint63 (Uint63.of_Z h)) 1%float) = Some (h + 1).
Proof. intros H. hours h H; vm_compute; reflexivity. Qed.

(** Setting the hour moves the wall clock by whole hours; the result is
    that wall-clock reading, read back as an instant. *)
Lemma setHours_shift (tza : TimeZone) (t : Z) (hour : float) (h : Z) :
  truncate hour = Some h ->
  setHours tza t hour
  = TimeClip (UTC tza (LocalTime tza t + (h - HourFromTime (LocalTime tza t)) * msPerHour)).
Proof.
  intros H. unfold setHours, MakeTime. rewrite H. do 2 f_equal.
  pose proof (time_components (LocalTime tza t)) as Ht.
  unfold MakeDate in *. lia.
Qed.

(** With [ttlHours = 0.5] the wall clock is left where it was. *)
Lemma setHours_half (tza : TimeZone) (t : Z) :
  setHours tza t (PrimFloat.add (getHours tza t) 0.5%float)
  = TimeClip (UTC tza (LocalTime tza t)).
Proof.
  rewrite (setHours_shift _ _ _ (HourFromTime (LocalTime tza t))).
  - do 2 f_equal. lia.
  - apply truncate_plus_half, HourFromTime_range.
Qed.

(** With [ttlHours = 1] the wall clock moves one hour ahead. *)
Lemma setHours_one (tza : TimeZone) (t : Z) :
  setHours tza t (PrimFloat.add (getHours tza t) 1%float)
  = TimeClip (UTC tza (LocalTime tza t + msPerHour)).
Proof.
  rewrite (setHours_shift _ _ _ (HourFromTime (LocalTime tza t) + 1)).
  - do 2 f_equal. lia.
  - apply truncate_plus_one, HourFromTime_range.
Qed.

Lemma TimeClip_clock (t u : Z) :
  clockReading t -> t - msPerDay <= u <= t -> TimeClip u = Some u.
Proof.
  unfold clockReading, TimeClip, msPerHour, msPerDay. intros H Hu.
  destruct (Z.leb_spec (Z.abs u) 8640000000000000); [reflexivity | lia].
Qed.

(** A zone whose offset never changes reads every wall-clock reading back
    as the instant it came from. *)
Lemma constant_zone (offset t : Z) :
  steadyClock (fun _ _ => offset) t /\ readBack (fun _ _ => offset) t.
Proof. unfold steadyClock, readBack, UTC, LocalTime, msPerDay. lia. Qed.

Lemma TimeClip_clock_hour (t : Z) :
  clockReading t -> TimeClip (t + msPerHour) = Some (t + msPerHour).
Proof.
  unfold clockReading, TimeClip, msPerHour. intros H.
  destruct (Z.leb_spec (Z.abs (t + 3600000)) 8640000000000000); [reflexivity | lia].
Qed.

End DateFacts.

(** ** The expiring cache *)

Section Cache.

Import CacheService.

(** [get] in one piece. *)
Lemma get_cases (now : Z) (key : string) (w : World) :
  get now key w =
    if reachable w
    then match cacheTable w !! key with
         | Some row =>
             if now >? expires_at row
             then (None, withTable (base.delete key (cacheTable w)) w,
                   [CacheSelect key; CacheDelete key])
             else (Some (value row), w, [CacheSelect key])
         | None => (None, w, [CacheSelect key])
         end
    else (None, w, [CacheSelect key]).
Proof.
  unfold get, bind, Supabase.selectSingle, delete, Supabase.deleteEq, ret.
  destruct (reachable w) eqn:Hr; [|reflexivity].
  destruct (cacheTable w !! key) as [row|]; [|reflexivity].
  destruct (now >? expires_at row); [|reflexivity].
  now rewrite Hr.
Qed.

(** [set] in one piece. *)
Lemma set_cases (E : Env) (now : Z) (key : string) (v : Value) (ttlHours : float) (w : World) :
  set E now key v ttlHours w =
    match JsDate.setHours (LocalTZA E) now
            (PrimFloat.add (JsDate.getHours (LocalTZA E) now) ttlHours) with
    | None => (tt, w, [])
    | Some expiresAt =>
        let row := {| value := v; expires_at := expiresAt |} in
        (tt, (if reachable w then withTable (<[key := row]> (cacheTable w)) w else w),
         [CacheUpsert key row])
    end.
Proof.
  unfold set, bind, Supabase.upsert, ret.
  destruct (JsDate.setHours _ _ _); [|reflexivity].
  now destruct (reachable w).
Qed.

Lemma get_reachable (now : Z) (key : string) (w : World) :
  reachable (world (get now key w)) = reachable w.
Proof.
  rewrite get_cases. destruct (reachable w) eqn:Hr; [|assumption].
  destruct (cacheTable w !! key) as [row|]; [|assumption].
  now destruct (now >? expires_at row).
Qed.

(** A miss stays a miss: after a [get] that returned nothing usable, a
    second [get] of the same key, at any time, returns nothing usable. *)
Lemma get_miss_again (now later : Z) (key : string) (w : World) :
  passes (result (get now key w)) = false ->
  passes (result (get later key (world (get now key w)))) = false.
Proof.
  rewrite !get_cases. destruct (reachable w) eqn:Hr; unfold world, result; simpl.
  - destruct (cacheTable w !! key) as [row|] eqn:Hrow; simpl.
    + destruct (now >? expires_at row); simpl.
      * intros _. rewrite Hr, lookup_delete_eq. reflexivity.
      * intros Hv. rewrite Hr, Hrow. now destruct (later >? expires_at row).
    + intros _. now rewrite Hr, Hrow.
  - intros _. now rewrite Hr.
Qed.

(** Past [expires_at] the row is not served and is deleted. *)
Lemma get_after_expiry (w : World) (now : Z) (key : string) (row : CacheRow) :
  reachable w = true ->
  cacheTable w !! key = Some row -> expires_at row < now ->
  result (get now key w) = None
  /\ cacheTable (world (get now key w)) !! key = None
  /\ forall later, result (get later key (world (get now key w))) = None.
Proof.
  intros Hr Hrow Hlt.
  assert (Hgt : (now >? expires_at row) = true) by (apply Z.gtb_lt; lia).
  rewrite !get_cases, Hr, Hrow, Hgt. unfold result, world; simpl.
  rewrite lookup_delete_eq. split; [reflexivity | split; [reflexivity|]].
  intros later. rewrite get_cases. simpl. rewrite Hr, lookup_delete_eq. reflexivity.
Qed.

(** C1, as the code has it. While Supabase answers: [get] returns a value
    iff the key has a row and the current time is not after its
    [expires_at]; once the current time is after [expires_at], [get]
    returns [null], the row is deleted, and a later [get] finds nothing. *)
Theorem get_expiry (w : World) (now : Z) (key : string) :
  reachable w = true ->
  (forall v,
     result (get now key w) = Some v
     <-> exists row,
           cacheTable w !! key = Some row /\ value row = v /\ now <= expires_at row)
  /\ (forall row,
        cacheTable w !! key = Some row -> expires_at row < now ->
        result (get now key w) = None
        /\ cacheTable (world (get now key w)) !! key = None
        /\ forall later, result (get later key (world (get now key w))) = None).
Proof.
  intros Hr. split.
  - intros v. rewrite get_cases, Hr. destruct (cacheTable w !! key) as [row|].
    + destruct (Z.gtb_spec now (expires_at row)) as [Hgt | Hle]; unfold result; simpl.
      * split; [discriminate|]. intros (row' & [= <-] & _ & Hle). lia.
      * split.
        -- intros [= <-]. now exists row.
        -- intros (row' & [= <-] & <- & _). reflexivity.
    + unfold result; simpl. split; [discriminate | intros (row' & H & _); discriminate].
  - intros row Hrow Hlt. now apply (get_after_expiry w now key row).
Qed.

(** The write of [set] with the default [ttlHours] (one hour), away from
    the changes of the clocks. *)
Lemma set_default_row (E : Env) (now : Z) (key : string) (v : Value) (w : World) :
  clockReading now ->
  steadyClock (LocalTZA E) now ->
  set E now key v defaultTtlHours w =
    (tt,
     (if reachable w
      then withTable (<[key := {| value := v; expires_at := now + JsDate.msPerHour |}]>
                        (cacheTable w)) w
      else w),
     [CacheUpsert key {| value := v; expires_at := now + JsDate.msPerHour |}]).
Proof.
  intros Hnow Hsteady. rewrite set_cases. unfold defaultTtlHours.
  rewrite setHours_one. unfold steadyClock in Hsteady. rewrite Hsteady.
  now rewrite TimeClip_clock_hour.
Qed.

(** The write of [set] with [ttlHours = 0.5]: the row expires at the
    wall-clock reading of the write, read back as an instant. *)
Lemma set_half_row (E : Env) (now : Z) (key : string) (v : Value) (w : World) :
  clockReading now ->
  readBack (LocalTZA E) now ->
  let expiresAt := JsDate.UTC (LocalTZA E) (JsDate.LocalTime (LocalTZA E) now) in
  set E now key v 0.5%float w =
    (tt,
     (if reachable w
      then withTable (<[key := {| value := v; expires_at := expiresAt |}]> (cacheTable w)) w
      else w),
     [CacheUpsert key {| value := v; expires_at := expiresAt |}]).
Proof.
  intros Hnow Hback. cbv zeta. rewrite set_cases.
  now rewrite setHours_half, (TimeClip_clock now).
Qed.

End Cache.

(** ** The geocoding resolver *)

Section Geocoding.

Import CacheService GeocodingService.

Lemma calls_get (now : Z) (key : string) (w : World) (e : Event) :
  In e (calls (get now key w)) -> e = CacheSelect key \/ e = CacheDelete key.
Proof.
  rewrite get_cases. destruct (reachable w).
  - destruct (cacheTable w !! key) as [row|].
    + destruct (now >? expires_at row); unfold calls; simpl; intuition auto.
    + unfold calls; simpl; intuition auto.
  - unfold calls; simpl; intuition auto.
Qed.

Lemma calls_set (E : Env) (now : Z) (key : string) (v : Value) (ttl : float)
    (w : World) (e : Event) :
  In e (calls (set E now key v ttl w)) ->
  exists expiresAt, e = CacheUpsert key {| value := v; expires_at := expiresAt |}.
Proof.
  rewrite set_cases. destruct (JsDate.setHours _ _ _) as [expiresAt|]; unfold calls; simpl.
  - intros [<- | []]. now exists expiresAt.
  - intros [].
Qed.

(** A provider method asks its provider and touches nothing else. *)
Lemma geocodeWithGoogle_run (E : Env) (loc : string) (w w0 : World) :
  geocodeWithGoogle E loc w =
    (result (geocodeWithGoogle E loc w0), w, [GeocodeWithGoogle loc]).
Proof.
  unfold geocodeWithGoogle, bind, emit, ret, result.
  destruct (googleApiKey E) as [apiKey|]; [|reflexivity].
  destruct (negb (JsString.truthy apiKey) || String.eqb apiKey _); [reflexivity|].
  destruct (googleGeocodeApi E loc) as [[|c l]|]; reflexivity.
Qed.

Lemma geocodeWithNominatim_run (E : Env) (loc : string) (w w0 : World) :
  geocodeWithNominatim E loc w =
    (result (geocodeWithNominatim E loc w0), w, [GeocodeWithNominatim loc]).
Proof.
  unfold geocodeWithNominatim, bind, emit, ret, result.
  destruct (nominatimSearchApi E loc) as [[|c l]|]; reflexivity.
Qed.

(** [geocodeLocation] in one piece: the cache lookup, then the providers in
    their order, then the write of a result. *)
Lemma geocodeLocation_cases (E : Env) (nowGet nowSet : Z) (loc : string) (w : World) :
  geocodeLocation E nowGet nowSet loc w =
    let looked := get nowGet (cacheKey loc) w in
    let write c := set E nowSet (cacheKey loc) (VCoords c) defaultTtlHours (world looked) in
    if passes (result looked) then looked
    else match result (geocodeWithGoogle E loc w) with
         | Some c =>
             (Some (VCoords c), world (write c),
              (calls looked ++ [GeocodeWithGoogle loc] ++ calls (write c))%list)
         | None =>
             match result (geocodeWithNominatim E loc w) with
             | Some c =>
                 (Some (VCoords c), world (write c),
                  (calls looked ++ [GeocodeWithGoogle loc; GeocodeWithNominatim loc]
                     ++ calls (write c))%list)
             | None =>
                 (None, world looked,
                  (calls looked ++ [GeocodeWithGoogle loc; GeocodeWithNominatim loc])%list)
             end
         end.
Proof.
  cbv zeta.
  pose proof (fun w1 => geocodeWithGoogle_run E loc w1 w) as HG.
  pose proof (fun w1 => geocodeWithNominatim_run E loc w1 w) as HN.
  set (g := result (geocodeWithGoogle E loc w)) in *.
  set (n := result (geocodeWithNominatim E loc w)) in *.
  unfold geocodeLocation, bind.
  destruct (get nowGet (cacheKey loc) w) as [[cached w1] calls1].
  cbn [result world calls fst snd].
  destruct (passes cached).
  - unfold ret. now rewrite app_nil_r.
  - rewrite HG. destruct g as [c|].
    + unfold ret at 1.
      destruct (set E nowSet (cacheKey loc) (VCoords c) defaultTtlHours w1)
        as [[u w2] calls2].
      unfold ret. simpl. now rewrite app_nil_r.
    + rewrite HN. destruct n as [c|].
      * destruct (set E nowSet (cacheKey loc) (VCoords c) defaultTtlHours w1)
          as [[u w2] calls2].
        unfold ret. simpl. now rewrite app_nil_r.
      * unfold ret. simpl. reflexivity.
Qed.

(** On a cache hit no provider is consulted. *)
Lemma geocode_cache_hit (E : Env) (nowGet nowSet : Z) (loc : string) (w : World) :
  passes (result (get nowGet (cacheKey loc) w)) = true ->
  geocodeLocation E nowGet nowSet loc w = get nowGet (cacheKey loc) w.
Proof. intros H. rewrite geocodeLocation_cases. cbv zeta. now rewrite H. Qed.

(** The resolver runs, that is Google is consulted, exactly on a miss. *)
Lemma google_consulted_iff_miss (E : Env) (nowGet nowSet : Z) (loc : string) (w : World) :
  In (GeocodeWithGoogle loc) (calls (geocodeLocation E nowGet nowSet loc w))
  <-> passes (result (get nowGet (cacheKey loc) w)) = false.
Proof.
  rewrite geocodeLocation_cases. cbv zeta.
  destruct (passes (result (get nowGet (cacheKey loc) w))).
  - split; [|discriminate]. intros H. apply calls_get in H as [H | H]; discriminate.
  - split; [reflexivity|]. intros _.
    destruct (result (geocodeWithGoogle E loc w));
      [|destruct (result (geocodeWithNominatim E loc w))];
      unfold calls at 1; simpl; apply in_or_app; right; now left.
Qed.

(** C4. Whenever the resolver consults its providers: if Google yields a
    result, [geocodeLocation] returns it and Nominatim is not invoked; if
    Google yields none and Nominatim yields one, the coordinates returned
    are Nominatim's. *)
Theorem fallback_short_circuit (E : Env) (nowGet nowSet : Z) (loc : string) (w : World) :
  In (GeocodeWithGoogle loc) (calls (geocodeLocation E nowGet nowSet loc w)) ->
  (forall g,
     result (geocodeWithGoogle E loc w) = Some g ->
     result (geocodeLocation E nowGet nowSet loc w) = Some (VCoords g)
     /\ forall l, ~ In (GeocodeWithNominatim l) (calls (geocodeLocation E nowGet nowSet loc w)))
  /\ (forall n,
        result (geocodeWithGoogle E loc w) = None ->
        result (geocodeWithNominatim E loc w) = Some n ->
        result (geocodeLocation E nowGet nowSet loc w) = Some (VCoords n)).
Proof.
  intros Hmiss. apply google_consulted_iff_miss in Hmiss.
  rewrite geocodeLocation_cases. cbv zeta. rewrite Hmiss. split.
  - intros g ->. split; [reflexivity|]. intros l. unfold calls at 1; simpl.
    intros H. apply in_app_or in H as [H | [H | H]].
    + apply calls_get in H as [H | H]; discriminate.
    + discriminate.
    + apply calls_set in H as [x H]. discriminate.
  - intros n -> ->. reflexivity.
Qed.

(** C5. When both providers fail, [geocodeLocation] writes nothing to the
    cache, and if it answered [null], a retry (whatever the providers do
    then, at whatever time) finds nothing usable in the cache and consults
    Google again, and Nominatim again if Google fails again. *)
Theorem no_negative_caching (E : Env) (nowGet nowSet : Z) (loc : string) (w : World) :
  result (geocodeWithGoogle E loc w) = None ->
  result (geocodeWithNominatim E loc w) = None ->
  (forall key row, ~ In (CacheUpsert key row) (calls (geocodeLocation E nowGet nowSet loc w)))
  /\ (result (geocodeLocation E nowGet nowSet loc w) = None ->
      forall (E' : Env) (nowGet' nowSet' : Z),
        let after := world (geocodeLocation E nowGet nowSet loc w) in
        let retry := geocodeLocation E' nowGet' nowSet' loc after in
        passes (result (get nowGet' (cacheKey loc) after)) = false
        /\ In (GeocodeWithGoogle loc) (calls retry)
        /\ (result (geocodeWithGoogle E' loc after) = None ->
            In (GeocodeWithNominatim loc) (calls retry))).
Proof.
  intros Hg Hn.
  pose proof (geocodeLocation_cases E nowGet nowSet loc w) as Hrun.
  cbv zeta in Hrun. rewrite Hg, Hn in Hrun.
  destruct (passes (result (get nowGet (cacheKey loc) w))) eqn:Hpass.
  - rewrite Hrun. split.
    + intros key row H. apply calls_get in H as [H | H]; discriminate.
    + intros Hnone. unfold passes in Hpass. rewrite Hnone in Hpass. discriminate.
  - assert (Hw : world (geocodeLocation E nowGet nowSet loc w)
                 = world (get nowGet (cacheKey loc) w)) by now rewrite Hrun.
    assert (Hc : calls (geocodeLocation E nowGet nowSet loc w)
                 = (calls (get nowGet (cacheKey loc) w)
                    ++ [GeocodeWithGoogle loc; GeocodeWithNominatim loc])%list)
      by now rewrite Hrun.
    split.
    + intros key row. rewrite Hc. intros H.
      apply in_app_or in H as [H | [H | [H | []]]]; try discriminate.
      apply calls_get in H as [H | H]; discriminate.
    + intros _ E' nowGet' nowSet'. cbv zeta. rewrite Hw.
      pose proof (get_miss_again nowGet nowGet' (cacheKey loc) w Hpass) as Hagain.
      split; [assumption|]. split.
      * now apply google_consulted_iff_miss.
      * intros Hg'. rewrite geocodeLocation_cases. cbv zeta. rewrite Hagain, Hg'.
        destruct (result (geocodeWithNominatim E' loc _));
          unfold calls at 1; simpl; apply in_or_app; right; right; now left.
Qed.

End Geocoding.

(** ** The social-media feed: cache key and TTL *)

Section SocialMediaCache.

Import CacheService SocialMediaService.

(** [fetchSocialMediaReports] in one piece. *)
Lemma fetch_cases (E : Env) (nowGet nowGen nowSet : Z) (disasterId : string)
    (tags : list string) (w : World) :
  fetchSocialMediaReports E nowGet nowGen nowSet disasterId tags w =
    let looked := get nowGet (cacheKey disasterId tags) w in
    let mockReports := VReports (generateMockReports nowGen tags) in
    let write := set E nowSet (cacheKey disasterId tags) mockReports socialMediaTtlHours
                   (world looked) in
    match result looked with
    | Some v =>
        if truthy v then (v, world looked, calls looked)
        else (mockReports, world write,
              (calls looked ++ [GenerateMockReports tags] ++ calls write)%list)
    | None =>
        (mockReports, world write,
         (calls looked ++ [GenerateMockReports tags] ++ calls write)%list)
    end.
Proof.
  cbv zeta. unfold fetchSocialMediaReports, bind, emit, ret.
  destruct (get nowGet (cacheKey disasterId tags) w) as [[cached w1] calls1].
  cbn [result world calls fst snd].
  destruct cached as [v|]; [destruct (truthy v)|]; simpl;
    try destruct (set E nowSet _ _ _ w1) as [[u w2] calls2];
    simpl; now rewrite ?app_nil_r.
Qed.

(** C3, what the code does. [setHours] takes the integer part of
    [getHours() + 0.5], so the wall clock of the expiry is that of the
    write: the row written by a miss expires at the moment of the write
    (at the wall-clock reading of the write read back as an instant, which
    is that moment or, in the hour repeated where the clocks go back, one
    hour before it). Every later call with the same arguments finds the
    row expired and produces the feed again. *)
Theorem social_media_ttl_is_zero (E : Env) (nowGet nowGen nowSet later : Z)
    (disasterId : string) (tags : list string) (w : World) :
  reachable w = true ->
  clockReading nowSet ->
  readBack (LocalTZA E) nowSet ->
  result (get nowGet (cacheKey disasterId tags) w) = None ->
  nowSet < later ->
  let first := fetchSocialMediaReports E nowGet nowGen nowSet disasterId tags w in
  let expiresAt := JsDate.UTC (LocalTZA E) (JsDate.LocalTime (LocalTZA E) nowSet) in
  cacheTable (world first) !! cacheKey disasterId tags
    = Some {| value := VReports (generateMockReports nowGen tags);
              expires_at := expiresAt |}
  /\ (LocalTZA E (JsDate.LocalTime (LocalTZA E) nowSet) false = LocalTZA E nowSet true ->
      expiresAt = nowSet)
  /\ result (get later (cacheKey disasterId tags) (world first)) = None
  /\ forall (E' : Env) (nowGen' nowSet' : Z),
       In (GenerateMockReports tags)
          (calls (fetchSocialMediaReports E' later nowGen' nowSet' disasterId tags
                    (world first))).
Proof.
  intros Hr Hclock Hback Hmiss Hlater. cbv zeta.
  pose proof (fetch_cases E nowGet nowGen nowSet disasterId tags w) as Hrun.
  cbv zeta in Hrun. rewrite Hmiss in Hrun.
  unfold socialMediaTtlHours in Hrun.
  rewrite (set_half_row E nowSet _ _ _ Hclock Hback) in Hrun.
  rewrite get_reachable, Hr in Hrun.
  cbn [result world calls fst snd] in Hrun.
  set (key := cacheKey disasterId tags) in *.
  set (expiresAt := JsDate.UTC (LocalTZA E) (JsDate.LocalTime (LocalTZA E) nowSet)) in *.
  assert (Hexp : expiresAt < later) by (unfold readBack in Hback; fold expiresAt in Hback; lia).
  set (row := {| value := VReports (generateMockReports nowGen tags);
                 expires_at := expiresAt |}) in *.
  set (first := fetchSocialMediaReports E nowGet nowGen nowSet disasterId tags w) in *.
  assert (Hw : world first = withTable (<[key := row]> (cacheTable (get nowGet key w).1.2))
                               (get nowGet key w).1.2) by now rewrite Hrun.
  assert (Hrow : cacheTable (world first) !! key = Some row).
  { rewrite Hw. unfold withTable; simpl. apply lookup_insert_eq. }
  assert (Hreach : reachable (world first) = true).
  { rewrite Hw. unfold withTable; simpl.
    pose proof (get_reachable nowGet key w) as H. unfold world in H. now rewrite H. }
  destruct (get_after_expiry (world first) later key row Hreach Hrow Hexp)
    as (Hnone & _ & _).
  split; [assumption|]. split.
  { intros Hsame. unfold expiresAt, JsDate.UTC. rewrite Hsame.
    unfold JsDate.LocalTime. lia. }
  split; [assumption|].
  intros E' nowGen' nowSet'.
  rewrite fetch_cases. cbv zeta. fold key. rewrite Hnone.
  unfold calls at 1; simpl. apply in_or_app. right. now left.
Qed.

End SocialMediaCache.

(** ** The cache key of the feed *)

Section FeedKey.

Import JsString SocialMediaService.

Lemma underscore_split (x y r1 r2 : string) :
  underscoreFree x = true -> underscoreFree y = true ->
  x ++ "_" ++ r1 = y ++ "_" ++ r2 -> x = y /\ r1 = r2.
Proof.
  revert y. induction x as [|a x IH]; intros [|b y]; simpl; intros Hx Hy H.
  - injection H as ->. auto.
  - injection H as <- _. discriminate.
  - injection H as -> _. discriminate.
  - injection H as -> H. apply andb_true_iff in Hx as [_ Hx], Hy as [_ Hy].
    destruct (IH y Hx Hy H) as [-> ->]. auto.
Qed.

Lemma underscore_absent (x y r : string) :
  underscoreFree x = true -> x <> y ++ "_" ++ r.
Proof.
  revert x. induction y as [|b y IH]; intros [|a x]; simpl; intros Hx H;
    try discriminate.
  - injection H as -> _. discriminate.
  - injection H as _ H. apply andb_true_iff in Hx as [_ Hx]. now apply (IH x).
Qed.

Lemma join_plain_empty (tags : list string) :
  forallb plainTag tags = true -> join "_" tags = "" -> tags = [].
Proof.
  destruct tags as [|t tags]; [reflexivity|]. simpl. intros H Hj.
  apply andb_true_iff in H as [Ht _]. apply andb_true_iff in Ht as [Ht _].
  destruct t; [discriminate|]. destruct tags; discriminate.
Qed.

(** On plain tags, [join] keeps the list: nothing is sorted or merged. *)
Lemma join_plain_inj (tags1 tags2 : list string) :
  forallb plainTag tags1 = true -> forallb plainTag tags2 = true ->
  join "_" tags1 = join "_" tags2 -> tags1 = tags2.
Proof.
  revert tags2. induction tags1 as [|x l1 IH]; intros tags2 H1 H2 Hj.
  - symmetry. apply join_plain_empty; [assumption | now rewrite <- Hj].
  - destruct tags2 as [|y l2].
    + apply join_plain_empty; assumption.
    + cbn [forallb] in H1, H2.
      apply andb_true_iff in H1 as [Hx H1], H2 as [Hy H2].
      pose proof Hx as Hx'. pose proof Hy as Hy'.
      apply andb_true_iff in Hx' as [_ Hx'], Hy' as [_ Hy'].
      destruct l1 as [|x2 l1], l2 as [|y2 l2]; cbn [join] in Hj.
      * now subst.
      * now apply underscore_absent in Hj.
      * symmetry in Hj. now apply underscore_absent in Hj.
      * apply underscore_split in Hj as [-> Hj]; [|assumption..].
        f_equal. now apply IH.
Qed.

(** C2, as the code has it. The key is the text
    [social_media_<disasterId>_<tags joined by _>], the tags in the order
    given. For disaster ids without an underscore and tags that are not
    empty and have no underscore, two calls get the same key iff they have
    the same disaster id and the same list of tags. *)
Theorem cache_key_plain (disasterId1 disasterId2 : string) (tags1 tags2 : list string) :
  underscoreFree disasterId1 = true -> underscoreFree disasterId2 = true ->
  forallb plainTag tags1 = true -> forallb plainTag tags2 = true ->
  cacheKey disasterId1 tags1 = "social_media_" ++ disasterId1 ++ "_" ++ join "_" tags1
  /\ (cacheKey disasterId1 tags1 = cacheKey disasterId2 tags2
      <-> disasterId1 = disasterId2 /\ tags1 = tags2).
Proof.
  intros Hd1 Hd2 H1 H2. split; [reflexivity|]. split.
  - unfold cacheKey. intros H. apply (String.app_inj "social_media_") in H.
    apply underscore_split in H as [-> H]; [|assumption..].
    split; [reflexivity|]. now apply join_plain_inj.
  - now intros [-> ->].
Qed.

End FeedKey.

(** ** Location extraction and the geocode route *)

Section Route.

Import CacheService GeminiService GeocodeRoute.

(** [extractLocation] in one piece. *)
Lemma extractLocation_cases (E : Env) (nowGet nowSet : Z) (text : string) (w : World) :
  extractLocation E nowGet nowSet text w =
    let looked := get nowGet (cacheKey text) w in
    let fresh :=
      match nerApi E text with
      | Some entities =>
          let result_data :=
            VLocation (if JsString.truthy (locationsOf entities)
                       then locationsOf entities else "Unknown") in
          let write := set E nowSet (cacheKey text) result_data defaultTtlHours
                         (world looked) in
          (result_data, world write,
           (calls looked ++ [NerRequest text] ++ calls write)%list)
      | None =>
          (VLocation failureSentinel, world looked,
           (calls looked ++ [NerRequest text])%list)
      end in
    match result looked with
    | Some v => if truthy v then (v, world looked, calls looked) else fresh
    | None => fresh
    end.
Proof.
  cbv zeta. unfold extractLocation, bind, emit, ret.
  destruct (get nowGet (cacheKey text) w) as [[cached w1] calls1].
  cbn [result world calls fst snd].
  destruct cached as [v|]; [destruct (truthy v)|];
    try destruct (nerApi E text) as [entities|];
    try destruct (set E nowSet _ _ _ w1) as [[u w2] calls2];
    simpl; now rewrite ?app_nil_r.
Qed.

(** The handler when the request has a description and no location name. *)
Lemma postGeocode_by_description (E : Env) (clock : Clock) (body : Body)
    (text : string) (w : World) :
  given (location_name body) = false ->
  description body = Some text ->
  JsString.truthy text = true ->
  postGeocode E clock body w =
    let ex := extractLocation E (extractGet clock) (extractSet clock) text w in
    let failed extracted :=
      ({| status := 422;
          json := ExtractionFailed "Could not extract location from description"
                    extracted |},
       world ex, calls ex) in
    match locationField (result ex) with
    | Some loc =>
        if negb (JsString.truthy loc) || String.eqb loc "Location extraction failed"
        then failed (Some loc)
        else
          let geo := GeocodingService.geocodeLocation E (geocodeGet clock)
                       (geocodeSet clock) loc (world ex) in
          (match result geo with
           | Some c =>
               if truthy c
               then {| status := 200;
                       json := Geocoded (Some text) loc c (answered clock) |}
               else {| status := 422;
                       json := GeocodeFailed "Could not geocode location" loc |}
           | None =>
               {| status := 422; json := GeocodeFailed "Could not geocode location" loc |}
           end,
           world geo, (calls ex ++ calls geo)%list)
    | None => failed None
    end.
Proof.
  intros Hname Hdesc Htext. cbv zeta. unfold postGeocode, bind, ret.
  rewrite Hname, Hdesc. cbn [given]. rewrite Htext. cbn [negb andb].
  destruct (extractLocation E _ _ text w) as [[v w1] calls1].
  cbn [result world calls fst snd].
  destruct (locationField v) as [loc|]; [|simpl; now rewrite ?app_nil_r].
  destruct (negb (JsString.truthy loc) || String.eqb loc _);
    [simpl; now rewrite ?app_nil_r|].
  destruct (GeocodingService.geocodeLocation E _ _ loc w1) as [[[c|] w2] calls2];
    cbn [result world calls fst snd];
    [destruct (truthy c)|]; simpl; now rewrite ?app_nil_r.
Qed.

Lemma extractLocation_no_provider (E : Env) (nowGet nowSet : Z) (text : string)
    (w : World) (e : Event) :
  In e (calls (extractLocation E nowGet nowSet text w)) -> isProviderCall e = false.
Proof.
  rewrite extractLocation_cases. cbv zeta.
  destruct (result (get _ _ w)) as [v|]; [destruct (truthy v)|];
    try destruct (nerApi E text);
    cbn [calls snd]; rewrite ?in_app_iff; cbn [In]; intros H;
    repeat match goal with
           | H : _ \/ _ |- _ => destruct H as [H | H]
           | H : In _ (calls (get _ _ _)) |- _ => apply calls_get in H as [-> | ->]
           | H : In _ (calls (set _ _ _ _ _ _)) |- _ => apply calls_set in H as [? ->]
           | H : In _ (get _ _ _).2 |- _ => apply calls_get in H as [-> | ->]
           | H : In _ (set _ _ _ _ _ _).2 |- _ => apply calls_set in H as [? ->]
           | H : _ = e |- _ => subst e
           | H : False |- _ => contradiction
           end; reflexivity.
Qed.

(** C8. A request with a description and no location name whose
    extraction yields the failure sentinel is answered 422, with the
    extracted text in the answer, and the handler does nothing after the
    extraction: no geocoding provider is invoked. *)
Theorem extraction_failure_fails_fast (E : Env) (clock : Clock) (body : Body)
    (text : string) (w : World) :
  given (location_name body) = false ->
  description body = Some text ->
  JsString.truthy text = true ->
  result (extractLocation E (extractGet clock) (extractSet clock) text w)
    = VLocation failureSentinel ->
  result (postGeocode E clock body w)
    = {| status := 422;
         json := ExtractionFailed "Could not extract location from description"
                   (Some failureSentinel) |}
  /\ calls (postGeocode E clock body w)
     = calls (extractLocation E (extractGet clock) (extractSet clock) text w)
  /\ forall e, In e (calls (postGeocode E clock body w)) -> isProviderCall e = false.
Proof.
  intros Hname Hdesc Htext Hex.
  rewrite (postGeocode_by_description E clock body text w) by assumption.
  cbv zeta. rewrite Hex. cbn [locationField]. unfold failureSentinel.
  cbn [result calls fst snd]. split; [reflexivity | split; [reflexivity|]].
  intros e. apply extractLocation_no_provider.
Qed.

End Route.

Section Unknown.

Import CacheService GeminiService GeocodeRoute.

Lemma locationsOf_no_entity (entities : list Entity) :
  List.filter keptGroup entities = [] -> locationsOf entities = "".
Proof. unfold locationsOf. now intros ->. Qed.

(** C9, what the code does. The phrase is built from the entities of the
    groups LOC, ORG, PER and MISC, not from the location entities alone.
    When the extraction is not served from the cache and the model
    answers, [extractLocation] returns that phrase, and ['Unknown'] only
    when the phrase is empty (as it is when the answer has no entity of
    the four groups) or reads "Unknown" itself; the value is written to
    the cache for an hour. Unless it reads as the failure sentinel, the
    handler does not answer [ExtractionFailed] but calls [geocodeLocation]
    with it, whose answer it reports, and Google is asked for it unless the
    geocoding cache has it. So an answer naming a person and no place has
    the person's name geocoded, and ["Unknown"] is geocoded like any
    location. *)
Theorem kept_entities_are_geocoded (E : Env) (clock : Clock) (body : Body)
    (text : string) (entities : list Entity) (w : World) :
  given (location_name body) = false ->
  description body = Some text ->
  JsString.truthy text = true ->
  passes (result (get (extractGet clock) (cacheKey text) w)) = false ->
  nerApi E text = Some entities ->
  clockReading (extractSet clock) ->
  steadyClock (LocalTZA E) (extractSet clock) ->
  let phrase := locationsOf entities in
  let extracted := if JsString.truthy phrase then phrase else "Unknown" in
  let ex := extractLocation E (extractGet clock) (extractSet clock) text w in
  let row := {| value := VLocation extracted;
                expires_at := extractSet clock + JsDate.msPerHour |} in
  let geo := GeocodingService.geocodeLocation E (geocodeGet clock) (geocodeSet clock)
               extracted (world ex) in
  (List.filter keptGroup entities = [] -> extracted = "Unknown")
  /\ (extracted = "Unknown" -> phrase = "" \/ phrase = "Unknown")
  /\ result ex = VLocation extracted
  /\ In (CacheUpsert (cacheKey text) row) (calls ex)
  /\ (reachable w = true -> cacheTable (world ex) !! cacheKey text = Some row)
  /\ (extracted <> failureSentinel ->
      result (postGeocode E clock body w)
      = match result geo with
        | Some c =>
            if truthy c
            then {| status := 200;
                    json := Geocoded (Some text) extracted c (answered clock) |}
            else {| status := 422;
                    json := GeocodeFailed "Could not geocode location" extracted |}
        | None =>
            {| status := 422;
               json := GeocodeFailed "Could not geocode location" extracted |}
        end
      /\ (forall error location,
            json (result (postGeocode E clock body w)) <> ExtractionFailed error location)
      /\ calls (postGeocode E clock body w) = (calls ex ++ calls geo)%list
      /\ (passes (result (get (geocodeGet clock) (GeocodingService.cacheKey extracted)
                            (world ex))) = false ->
          In (GeocodeWithGoogle extracted) (calls (postGeocode E clock body w)))).
Proof.
  intros Hname Hdesc Htext Hmiss Hner Hclock Hsteady. cbv zeta.
  set (phrase := locationsOf entities).
  set (extracted := if JsString.truthy phrase then phrase else "Unknown").
  assert (Htruthy : JsString.truthy extracted = true).
  { unfold extracted. now destruct (JsString.truthy phrase) eqn:Hp. }
  pose proof (extractLocation_cases E (extractGet clock) (extractSet clock) text w) as Hex.
  cbv zeta in Hex. rewrite Hner in Hex. fold phrase in Hex. fold extracted in Hex.
  rewrite (set_default_row E _ _ _ _ Hclock Hsteady) in Hex.
  rewrite get_reachable in Hex. cbn [world calls fst snd] in Hex.
  set (ex := extractLocation E (extractGet clock) (extractSet clock) text w) in *.
  set (looked := get (extractGet clock) (cacheKey text) w) in *.
  set (row := {| value := VLocation extracted;
                 expires_at := extractSet clock + JsDate.msPerHour |}) in *.
  assert (Hex' : ex = (VLocation extracted,
                       (if reachable w
                        then withTable (<[cacheKey text := row]> (cacheTable looked.1.2))
                               looked.1.2
                        else looked.1.2),
                       (looked.2 ++ [NerRequest text; CacheUpsert (cacheKey text) row])%list)).
  { rewrite Hex. unfold passes in Hmiss.
    destruct (result looked) as [v|]; [now rewrite Hmiss | reflexivity]. }
  assert (Hres : result ex = VLocation extracted) by now rewrite Hex'.
  split.
  { intros Hnone. unfold extracted, phrase. now rewrite (locationsOf_no_entity _ Hnone). }
  split.
  { unfold extracted. destruct phrase; cbn [JsString.truthy]; [now left | now right]. }
  split; [assumption|]. split.
  { rewrite Hex'. unfold calls; simpl. apply in_or_app. right. right. now left. }
  split.
  { intros Hr. rewrite Hex', Hr. unfold world, withTable; simpl. apply lookup_insert_eq. }
  intros Hsentinel.
  assert (Heqb : String.eqb extracted "Location extraction failed" = false)
    by now apply String.eqb_neq.
  pose proof (postGeocode_by_description E clock body text w Hname Hdesc Htext) as Hpost.
  cbv zeta in Hpost. fold ex in Hpost. rewrite Hres in Hpost.
  cbn [locationField] in Hpost. rewrite Htruthy, Heqb in Hpost.
  cbn [negb orb] in Hpost. cbv iota in Hpost.
  set (geo := GeocodingService.geocodeLocation E (geocodeGet clock) (geocodeSet clock)
                extracted (world ex)) in *.
  split; [now rewrite Hpost|]. split.
  { intros error location. rewrite Hpost. unfold result; simpl.
    destruct (geo.1.1) as [c|]; [destruct (truthy c)|]; discriminate. }
  split; [now rewrite Hpost|].
  intros Hgeo. rewrite Hpost. unfold calls at 1; simpl. apply in_or_app. right.
  now apply google_consulted_iff_miss.
Qed.

End Unknown.

(** ** Fan-out over Socket.IO rooms *)

Section FanOut.

Import SocketIO.

Lemma roomOf_inj (X Y : string) : roomOf X = roomOf Y -> X = Y.
Proof. unfold roomOf. apply String.app_inj. Qed.

Lemma run_snoc (events : list ClientEvent) (e : ClientEvent) :
  run (events ++ [e])%list = handle (run events) e.
Proof. unfold run. now rewrite fold_left_app. Qed.

Lemma subscribed_isConnected (history : list ClientEvent) (s X : string) :
  subscribed history s X = true -> isConnected history s = true.
Proof.
  induction history as [|[c | c d | c] earlier IH]; simpl; [discriminate | | |].
  - rewrite andb_true_iff. intros [Hne H]. rewrite (IH H). apply orb_true_r.
  - rewrite orb_true_iff, !andb_true_iff. intros [[_ H] | H]; auto.
  - rewrite !andb_true_iff. intros [Hne H]. auto.
Qed.

(** The adapter's state is the subscription relation of the history. *)
Lemma run_state (events : list ClientEvent) (s : string) :
  (s ∈ connected (run events) <-> isConnected (rev events) s = true)
  /\ forall X, roomOf X ∈ roomsOf (run events) s <-> subscribed (rev events) s X = true.
Proof.
  induction events as [|e events [IHc IHr]] using rev_ind.
  - split; [|intros X]; unfold run, roomsOf; simpl.
    + split; [intros H; now apply not_elem_of_empty in H | discriminate].
    + rewrite lookup_empty. simpl.
      split; [intros H; now apply not_elem_of_empty in H | discriminate].
  - rewrite rev_unit, run_snoc.
    destruct e as [c | c d | c]; cbn [handle isConnected subscribed].
    + split; [|intros X]; unfold roomsOf; cbn [connected sids].
      * rewrite elem_of_union, elem_of_singleton, orb_true_iff, bool_decide_eq_true, IHc.
        split; intros [H | H]; auto.
      * rewrite andb_true_iff, negb_true_iff, bool_decide_eq_false.
        destruct (decide (c = s)) as [-> | Hne].
        -- rewrite lookup_insert_eq. simpl. split.
           ++ intros H. now apply not_elem_of_empty in H.
           ++ intros [H _]. now contradiction H.
        -- rewrite lookup_insert_ne by assumption. fold (roomsOf (run events) s).
           rewrite IHr. split; [auto | intros [_ H]; exact H].
    + destruct (decide (c ∈ connected (run events))) as [Hc | Hc].
      * split; [exact IHc | intros X]. unfold join, roomsOf; cbn [sids].
        rewrite orb_true_iff, !andb_true_iff, !bool_decide_eq_true.
        destruct (decide (c = s)) as [-> | Hne].
        -- rewrite lookup_insert_eq. simpl. fold (roomsOf (run events) s).
           rewrite elem_of_union, elem_of_singleton, IHr. split.
           ++ intros [H | H]; [left | now right].
              apply roomOf_inj in H. subst. split; [auto|]. now apply IHc.
           ++ intros [[[_ ->] _] | H]; [now left | now right].
        -- rewrite lookup_insert_ne by assumption. fold (roomsOf (run events) s).
           rewrite IHr. split; [now right | intros [[[H _] _] | H]; [contradiction | exact H]].
      * split; [exact IHc | intros X]. rewrite IHr.
        rewrite orb_true_iff, !andb_true_iff, !bool_decide_eq_true. split; [now right|].
        intros [[[-> _] H] | H]; [|exact H]. apply IHc in H. contradiction.
    + split; [|intros X]; unfold roomsOf; cbn [connected sids];
        rewrite andb_true_iff, negb_true_iff, bool_decide_eq_false.
      * rewrite elem_of_difference, elem_of_singleton, IHc. split; intros [H1 H2]; auto.
      * destruct (decide (c = s)) as [-> | Hne].
        -- rewrite lookup_delete_eq. simpl. split.
           ++ intros H. now apply not_elem_of_empty in H.
           ++ intros [H _]. now contradiction H.
        -- rewrite lookup_delete_ne by assumption. fold (roomsOf (run events) s).
           rewrite IHr. split; [auto | intros [_ H]; exact H].
Qed.

(** C6. After any history of connections, joins and disconnections: an
    emission scoped to disaster [X] reaches exactly the connections
    subscribed to [X] at that moment (so not one subscribed to another
    disaster only, and one subscribed to [X] and [Y] gets the events of
    both), and a global emission reaches exactly the live connections,
    subscribed or not. *)
Theorem fan_out_scoping (events : list ClientEvent) (socketId : string) :
  (forall X,
     socketId ∈ emitToDisaster (run events) X
     <-> subscribed (rev events) socketId X = true)
  /\ (forall X Y,
        X <> Y ->
        subscribed (rev events) socketId Y = true ->
        subscribed (rev events) socketId X = false ->
        socketId ∈ emitToDisaster (run events) Y
        /\ socketId ∉ emitToDisaster (run events) X)
  /\ (forall X Y,
        subscribed (rev events) socketId X = true ->
        subscribed (rev events) socketId Y = true ->
        socketId ∈ emitToDisaster (run events) X
        /\ socketId ∈ emitToDisaster (run events) Y)
  /\ (socketId ∈ emitAll (run events) <-> isConnected (rev events) socketId = true).
Proof.
  destruct (run_state events socketId) as [Hc Hr].
  assert (Hscoped : forall X, socketId ∈ emitToDisaster (run events) X
                              <-> subscribed (rev events) socketId X = true).
  { intros X. unfold emitToDisaster, emitTo. rewrite elem_of_filter, Hr, Hc. split.
    - now intros [H _].
    - intros H. split; [assumption|]. now apply subscribed_isConnected in H. }
  split; [exact Hscoped | split; [|split; [|exact Hc]]].
  - intros X Y _ HY HX. split; [now apply Hscoped|].
    intros H. apply Hscoped in H. congruence.
  - intros X Y HX HY. split; now apply Hscoped.
Qed.

End FanOut.

(** * The properties on sample inputs *)

Section Samples.

Import Sample.

(** At the very instant of [expires_at] the row is still served, and it
    stays in the table. *)
Lemma get_at_expiry_instant :
  cacheTable oneRowWorld !! "k" = Some row
  /\ expires_at row <= 1000
  /\ result (CacheService.get 1000 "k" oneRowWorld) = Some (VString "v")
  /\ cacheTable (world (CacheService.get 1000 "k" oneRowWorld)) !! "k" = Some row.
Proof.
  assert (H : cacheTable oneRowWorld !! "k" = Some row) by apply lookup_singleton_eq.
  split; [exact H|]. split; [simpl; lia|].
  rewrite get_cases. change (reachable oneRowWorld) with true. cbv iota.
  rewrite H. simpl. split; [reflexivity | exact H].
Qed.

Lemma get_expiry_witness :
  reachable oneRowWorld = true
  /\ result (CacheService.get 1000 "k" oneRowWorld) = Some (VString "v")
  /\ result (CacheService.get 1001 "k" oneRowWorld) = None.
Proof.
  split; [reflexivity|].
  destruct (get_expiry oneRowWorld 1000 "k" eq_refl) as [Hserved _].
  destruct (get_expiry oneRowWorld 1001 "k" eq_refl) as [_ Hexpired].
  split.
  - apply Hserved. exists row. split; [apply lookup_singleton_eq|].
    split; [reflexivity | simpl; lia].
  - apply (Hexpired row); [apply lookup_singleton_eq | simpl; lia].
Defined.

(** The key keeps the order and the repetitions of the tags, and a tag
    with an underscore collides with two tags. *)
Lemma cache_key_not_canonical :
  SocialMediaService.cacheKey "d1" ["flood"; "fire"]
    <> SocialMediaService.cacheKey "d1" ["fire"; "flood"]
  /\ SocialMediaService.cacheKey "d1" ["flood"; "flood"]
     <> SocialMediaService.cacheKey "d1" ["flood"]
  /\ SocialMediaService.cacheKey "d1" ["food_water"]
     = SocialMediaService.cacheKey "d1" ["food"; "water"]
  /\ SocialMediaService.cacheKey "d1_food" ["water"]
     = SocialMediaService.cacheKey "d1" ["food"; "water"].
Proof.
  split; [discriminate|]. split; [discriminate|]. split; reflexivity.
Qed.

Lemma cache_key_plain_witness :
  underscoreFree "d1" = true
  /\ forallb plainTag ["flood"; "fire"] = true
  /\ forallb plainTag ["fire"; "flood"] = true
  /\ (SocialMediaService.cacheKey "d1" ["flood"; "fire"]
        = SocialMediaService.cacheKey "d1" ["fire"; "flood"]
      <-> "d1" = "d1" /\ ["flood"; "fire"] = ["fire"; "flood"]).
Proof.
  split; [reflexivity|]. split; [reflexivity|]. split; [reflexivity|].
  apply (cache_key_plain "d1" "d1" ["flood"; "fire"] ["fire"; "flood"]); reflexivity.
Defined.

Lemma clockReading_t0 : clockReading t0.
Proof. unfold clockReading, t0, JsDate.msPerHour. lia. Defined.

Lemma steadyClock_t0 : steadyClock (LocalTZA env) t0.
Proof. unfold steadyClock, JsDate.UTC, JsDate.LocalTime, env, LocalTZA. lia. Defined.

Lemma readBack_t0 : readBack (LocalTZA env) t0.
Proof.
  unfold readBack, JsDate.UTC, JsDate.LocalTime, env, LocalTZA, t0, JsDate.msPerDay. lia.
Defined.

Lemma clockReading_repeated0 : clockReading repeated0.
Proof. unfold clockReading, repeated0, clocksBack, JsDate.msPerHour. lia. Defined.

Lemma readBack_repeated0 : readBack (LocalTZA newYorkEnv) repeated0.
Proof. vm_compute. split; discriminate. Defined.

(** A feed fetched at [t0] is written with [t0] as its expiry and is
    produced again one minute later. In New York, in the repeated hour, it
    is written as expired an hour ago, and produced again one minute
    later. *)
Lemma social_media_ttl_witness :
  let first := SocialMediaService.fetchSocialMediaReports env t0 t0 t0 "d1" ["flood"]
                 emptyWorld in
  let inNewYork := SocialMediaService.fetchSocialMediaReports newYorkEnv repeated0
                     repeated0 repeated0 "d1" ["flood"] emptyWorld in
  reachable emptyWorld = true
  /\ t0 < t1
  /\ cacheTable (world first) !! SocialMediaService.cacheKey "d1" ["flood"]
     = Some {| value := VReports (SocialMediaService.generateMockReports t0 ["flood"]);
               expires_at := t0 |}
  /\ In (GenerateMockReports ["flood"])
        (calls (SocialMediaService.fetchSocialMediaReports env t1 t1 t1 "d1" ["flood"]
                  (world first)))
  /\ cacheTable (world inNewYork) !! SocialMediaService.cacheKey "d1" ["flood"]
     = Some {| value := VReports (SocialMediaService.generateMockReports repeated0
                                    ["flood"]);
               expires_at := repeated0 - JsDate.msPerHour |}
  /\ In (GenerateMockReports ["flood"])
        (calls (SocialMediaService.fetchSocialMediaReports newYorkEnv repeated1 repeated1
                  repeated1 "d1" ["flood"] (world inNewYork))).
Proof.
  cbv zeta. split; [reflexivity|]. split; [reflexivity|].
  destruct (social_media_ttl_is_zero env t0 t0 t0 t1 "d1" ["flood"] emptyWorld
              eq_refl clockReading_t0 readBack_t0 eq_refl eq_refl)
    as (Hrow & _ & _ & Hagain).
  split; [exact Hrow|]. split; [apply Hagain|].
  destruct (social_media_ttl_is_zero newYorkEnv repeated0 repeated0 repeated0 repeated1
              "d1" ["flood"] emptyWorld
              eq_refl clockReading_repeated0 readBack_repeated0 eq_refl eq_refl)
    as (Hrow' & _ & _ & Hagain').
  split; [exact Hrow' | apply Hagain'].
Defined.

(** Google knows "Wall Street": its answer is returned and Nominatim is not
    asked. Google does not know "Brooklyn": Nominatim's answer is
    returned. *)
Lemma fallback_short_circuit_witness :
  In (GeocodeWithGoogle "Wall Street")
     (calls (GeocodingService.geocodeLocation env t0 t0 "Wall Street" emptyWorld))
  /\ result (GeocodingService.geocodeLocation env t0 t0 "Wall Street" emptyWorld)
     = Some (VCoords {| lat := 40.5%float; lng := (-74)%float |})
  /\ ~ In (GeocodeWithNominatim "Wall Street")
         (calls (GeocodingService.geocodeLocation env t0 t0 "Wall Street" emptyWorld))
  /\ result (GeocodingService.geocodeLocation env t0 t0 "Brooklyn" emptyWorld)
     = Some (VCoords {| lat := 40.75%float; lng := (-73.875)%float |}).
Proof.
  assert (H1 : In (GeocodeWithGoogle "Wall Street")
                 (calls (GeocodingService.geocodeLocation env t0 t0 "Wall Street"
                           emptyWorld)))
    by (apply google_consulted_iff_miss; reflexivity).
  assert (H2 : In (GeocodeWithGoogle "Brooklyn")
                 (calls (GeocodingService.geocodeLocation env t0 t0 "Brooklyn"
                           emptyWorld)))
    by (apply google_consulted_iff_miss; reflexivity).
  destruct (fallback_short_circuit env t0 t0 "Wall Street" emptyWorld H1) as [Hg _].
  destruct (fallback_short_circuit env t0 t0 "Brooklyn" emptyWorld H2) as [_ Hn].
  destruct (Hg {| lat := 40.5%float; lng := (-74)%float |} eq_refl) as [Hres Hnot].
  split; [exact H1|]. split; [exact Hres|]. split; [apply Hnot|].
  apply Hn; reflexivity.
Defined.

(** Nobody knows "Atlantis": nothing is written, and the retry asks both
    providers again. *)
Lemma no_negative_caching_witness :
  let first := GeocodingService.geocodeLocation env t0 t0 "Atlantis" emptyWorld in
  result (GeocodingService.geocodeWithGoogle env "Atlantis" emptyWorld) = None
  /\ result (GeocodingService.geocodeWithNominatim env "Atlantis" emptyWorld) = None
  /\ (forall key row, ~ In (CacheUpsert key row) (calls first))
  /\ In (GeocodeWithGoogle "Atlantis")
        (calls (GeocodingService.geocodeLocation env t1 t1 "Atlantis" (world first)))
  /\ In (GeocodeWithNominatim "Atlantis")
        (calls (GeocodingService.geocodeLocation env t1 t1 "Atlantis" (world first))).
Proof.
  cbv zeta. split; [reflexivity|]. split; [reflexivity|].
  destruct (no_negative_caching env t0 t0 "Atlantis" emptyWorld eq_refl eq_refl)
    as [Hnowrite Hretry].
  split; [exact Hnowrite|].
  destruct (Hretry eq_refl env t1 t1) as (_ & Hgoogle & Hnominatim).
  split; [exact Hgoogle | apply Hnominatim; reflexivity].
Defined.

(** The model fails on "somewhere": the handler answers 422 and asks no
    provider. *)
Lemma extraction_failure_witness :
  GeocodeRoute.given (GeocodeRoute.location_name (byDescription "somewhere")) = false
  /\ JsString.truthy "somewhere" = true
  /\ result (GeminiService.extractLocation env t0 t0 "somewhere" emptyWorld)
     = VLocation GeminiService.failureSentinel
  /\ GeocodeRoute.status
       (result (GeocodeRoute.postGeocode env clock (byDescription "somewhere") emptyWorld))
     = 422
  /\ forall e,
       In e (calls (GeocodeRoute.postGeocode env clock (byDescription "somewhere")
                      emptyWorld)) ->
       isProviderCall e = false.
Proof.
  split; [reflexivity|]. split; [reflexivity|]. split; [reflexivity|].
  destruct (extraction_failure_fails_fast env clock (byDescription "somewhere")
              "somewhere" emptyWorld eq_refl eq_refl eq_refl eq_refl)
    as (Hres & _ & Hnone).
  split; [now rewrite Hres | exact Hnone].
Defined.

(** The model finds a person and no place in "John needs help": "John" is
    extracted, cached, and sent to Google. It finds nothing in "hello":
    "Unknown" is extracted, cached, and sent to Google. *)
Lemma kept_entities_are_geocoded_witness :
  let person := GeminiService.extractLocation env t0 t0 "John needs help" emptyWorld in
  let nothing := GeminiService.extractLocation env t0 t0 "hello" emptyWorld in
  nerApi env "John needs help" = Some [ {| entity_group := "PER"; word := "John" |} ]
  /\ result person = VLocation "John"
  /\ cacheTable (world person) !! GeminiService.cacheKey "John needs help"
     = Some {| value := VLocation "John"; expires_at := t0 + JsDate.msPerHour |}
  /\ In (GeocodeWithGoogle "John")
        (calls (GeocodeRoute.postGeocode env clock (byDescription "John needs help")
                  emptyWorld))
  /\ nerApi env "hello" = Some []
  /\ result nothing = VLocation "Unknown"
  /\ cacheTable (world nothing) !! GeminiService.cacheKey "hello"
     = Some {| value := VLocation "Unknown"; expires_at := t0 + JsDate.msPerHour |}
  /\ In (GeocodeWithGoogle "Unknown")
        (calls (GeocodeRoute.postGeocode env clock (byDescription "hello") emptyWorld)).
Proof.
  cbv zeta. split; [reflexivity|].
  destruct (kept_entities_are_geocoded env clock (byDescription "John needs help")
              "John needs help" [ {| entity_group := "PER"; word := "John" |} ]
              emptyWorld eq_refl eq_refl eq_refl eq_refl eq_refl clockReading_t0
              steadyClock_t0)
    as (_ & _ & Hres & _ & Hrow & Hroute).
  split; [exact Hres|]. split; [apply Hrow; reflexivity|].
  destruct (Hroute ltac:(vm_compute; discriminate)) as (_ & _ & _ & Hgoogle).
  split; [apply Hgoogle; vm_compute; reflexivity|]. split; [reflexivity|].
  destruct (kept_entities_are_geocoded env clock (byDescription "hello") "hello" []
              emptyWorld eq_refl eq_refl eq_refl eq_refl eq_refl clockReading_t0
              steadyClock_t0)
    as (_ & _ & Hres' & _ & Hrow' & Hroute').
  split; [exact Hres'|]. split; [apply Hrow'; reflexivity|].
  destruct (Hroute' ltac:(vm_compute; discriminate)) as (_ & _ & _ & Hgoogle').
  apply Hgoogle'. vm_compute. reflexivity.
Defined.

(** Scenario C: two connections join D1 and a third joins D2; an event
    scoped to D1 reaches the first two only, a global one reaches all. *)
Lemma fan_out_scoping_witness :
  let events := [ SocketIO.Connection "a"; SocketIO.Connection "b";
                  SocketIO.Connection "c"; SocketIO.JoinDisaster "a" "D1";
                  SocketIO.JoinDisaster "b" "D1"; SocketIO.JoinDisaster "c" "D2" ] in
  ("a" ∈ SocketIO.emitToDisaster (SocketIO.run events) "D1")
  /\ ("b" ∈ SocketIO.emitToDisaster (SocketIO.run events) "D1")
  /\ ("c" ∉ SocketIO.emitToDisaster (SocketIO.run events) "D1")
  /\ ("c" ∈ SocketIO.emitToDisaster (SocketIO.run events) "D2")
  /\ ("c" ∈ SocketIO.emitAll (SocketIO.run events)).
Proof.
  intros events.
  destruct (fan_out_scoping events "a") as (Ha & _).
  destruct (fan_out_scoping events "b") as (Hb & _).
  destruct (fan_out_scoping events "c") as (Hc & Honly & _ & Hall).
  split; [apply Ha; reflexivity|]. split; [apply Hb; reflexivity|].
  destruct (Honly "D1" "D2") as [Hin Hout]; [discriminate | reflexivity | reflexivity |].
  split; [exact Hout|]. split; [exact Hin|]. apply Hall. reflexivity.
Defined.

(** Scenario A: the description is resolved through the extraction and
    Google, and the same request a minute later is served from the cache
    without any provider call. *)
Example scenario_A :
  let body := byDescription "Heavy flooding near Wall Street" in
  let later := {| GeocodeRoute.extractGet := t1; GeocodeRoute.extractSet := t1;
                  GeocodeRoute.geocodeGet := t1; GeocodeRoute.geocodeSet := t1;
                  GeocodeRoute.answered := t1 |} in
  let first := GeocodeRoute.postGeocode env clock body emptyWorld in
  let second := GeocodeRoute.postGeocode env later body (world first) in
  result first
  = {| GeocodeRoute.status := 200;
       GeocodeRoute.json :=
         GeocodeRoute.Geocoded (Some "Heavy flooding near Wall Street") "Wall Street"
           (VCoords {| lat := 40.5%float; lng := (-74)%float |}) t0 |}
  /\ calls first
     = [ CacheSelect "location_extract_SGVhdnkgZmxvb2RpbmcgbmVhciBXYWxsIFN0cmVldA==";
         NerRequest "Heavy flooding near Wall Street";
         CacheUpsert "location_extract_SGVhdnkgZmxvb2RpbmcgbmVhciBXYWxsIFN0cmVldA=="
           {| value := VLocation "Wall Street"; expires_at := t0 + 3600000 |};
         CacheSelect "geocode_V2FsbCBTdHJlZXQ=";
         GeocodeWithGoogle "Wall Street";
         CacheUpsert "geocode_V2FsbCBTdHJlZXQ="
           {| value := VCoords {| lat := 40.5%float; lng := (-74)%float |};
              expires_at := t0 + 3600000 |} ]
  /\ calls second
     = [ CacheSelect "location_extract_SGVhdnkgZmxvb2RpbmcgbmVhciBXYWxsIFN0cmVldA==";
         CacheSelect "geocode_V2FsbCBTdHJlZXQ=" ]
  /\ GeocodeRoute.status (result second) = 200.
Proof. vm_compute. repeat split. Qed.

End Samples.
(** * Further properties of the services *)

(** ** The cache as a store *)

Section CacheStore.

Import CacheService.

Lemma get_frame (now : Z) (key key' : string) (w : World) :
  key' <> key ->
  cacheTable (world (get now key w)) !! key' = cacheTable w !! key'.
Proof.
  intros Hne. rewrite get_cases. destruct (reachable w); [|reflexivity].
  destruct (cacheTable w !! key) as [row|]; [|reflexivity].
  destruct (now >? expires_at row); [|reflexivity].
  unfold world, withTable; simpl. now apply lookup_delete_ne.
Qed.

Lemma set_frame (E : Env) (now : Z) (key key' : string) (v : Value) (ttl : float)
    (w : World) :
  key' <> key ->
  cacheTable (world (set E now key v ttl w)) !! key' = cacheTable w !! key'.
Proof.
  intros Hne. rewrite set_cases.
  destruct (JsDate.setHours _ _ _); [|reflexivity].
  cbv zeta. cbn [world fst snd]. destruct (reachable w); [|reflexivity].
  unfold withTable; simpl. now apply lookup_insert_ne.
Qed.

Lemma set_reachable (E : Env) (now : Z) (key : string) (v : Value) (ttl : float)
    (w : World) :
  reachable (world (set E now key v ttl w)) = reachable w.
Proof.
  rewrite set_cases. destruct (JsDate.setHours _ _ _); [|reflexivity].
  cbv zeta. cbn [world fst snd]. destruct (reachable w) eqn:Hr; simpl; congruence.
Qed.

(** A row of the table is served up to and including its [expires_at]. *)
Lemma get_fresh (w : World) (now : Z) (key : string) (row : CacheRow) :
  reachable w = true ->
  cacheTable w !! key = Some row -> now <= expires_at row ->
  get now key w = (Some (value row), w, [CacheSelect key]).
Proof.
  intros Hr Hrow Hle. rewrite get_cases, Hr, Hrow.
  destruct (Z.gtb_spec now (expires_at row)); [lia | reflexivity].
Qed.

(** The write of [set] with the default [ttlHours], in any time zone: the
    row expires at the wall-clock reading one hour ahead, read back as an
    instant. *)
Lemma set_default_expiry (E : Env) (now expiresAt : Z) (key : string) (v : Value)
    (w : World) :
  JsDate.TimeClip
    (JsDate.UTC (LocalTZA E) (JsDate.LocalTime (LocalTZA E) now + JsDate.msPerHour))
  = Some expiresAt ->
  set E now key v defaultTtlHours w =
    (tt,
     (if reachable w
      then withTable (<[key := {| value := v; expires_at := expiresAt |}]> (cacheTable w)) w
      else w),
     [CacheUpsert key {| value := v; expires_at := expiresAt |}]).
Proof.
  intros Hclip. rewrite set_cases. unfold defaultTtlHours.
  now rewrite setHours_one, Hclip.
Qed.

(** X1. What [set] stores with the default [ttlHours] is returned by [get]
    up to and including its expiry and is gone after it. The expiry is the
    wall-clock reading one hour after that of the write, read back as an
    instant: one hour after the write where no change of the clocks is in
    the way. *)
Theorem set_get_round_trip (E : Env) (now later expiresAt : Z) (key : string)
    (v : Value) (w : World) :
  reachable w = true ->
  JsDate.TimeClip
    (JsDate.UTC (LocalTZA E) (JsDate.LocalTime (LocalTZA E) now + JsDate.msPerHour))
  = Some expiresAt ->
  let stored := world (set E now key v defaultTtlHours w) in
  (steadyClock (LocalTZA E) now -> expiresAt = now + JsDate.msPerHour)
  /\ (later <= expiresAt -> result (get later key stored) = Some v)
  /\ (expiresAt < later ->
      result (get later key stored) = None
      /\ cacheTable (world (get later key stored)) !! key = None).
Proof.
  intros Hr Hclip. cbv zeta. rewrite (set_default_expiry E now expiresAt) by assumption.
  rewrite Hr. cbn [world fst snd].
  set (row := {| value := v; expires_at := expiresAt |}).
  set (stored := withTable (<[key := row]> (cacheTable w)) w).
  assert (Hrow : cacheTable stored !! key = Some row) by apply lookup_insert_eq.
  assert (Hrs : reachable stored = true) by exact Hr.
  split; [|split].
  - intros Hsteady. unfold steadyClock in Hsteady. rewrite Hsteady in Hclip.
    unfold JsDate.TimeClip in Hclip.
    destruct (Z.abs (now + JsDate.msPerHour) <=? 8640000000000000); congruence.
  - intros Hle. now rewrite (get_fresh stored later key row).
  - intros Hlt.
    destruct (get_after_expiry stored later key row Hrs Hrow Hlt) as (H1 & H2 & _).
    now split.
Qed.

(** X2. [set] is an upsert on its key: a second write replaces the first,
    whatever the first was, as if the first had not happened, and no write
    touches another key. *)
Theorem set_overwrites (E : Env) (now1 now2 : Z) (key : string) (v1 v2 : Value)
    (ttl1 : float) (w : World) :
  clockReading now2 ->
  steadyClock (LocalTZA E) now2 ->
  world (set E now2 key v2 defaultTtlHours (world (set E now1 key v1 ttl1 w)))
    = world (set E now2 key v2 defaultTtlHours w)
  /\ forall key' v ttl now,
       key' <> key ->
       cacheTable (world (set E now key v ttl w)) !! key' = cacheTable w !! key'.
Proof.
  intros H2 Hsteady. split.
  - rewrite !(set_default_row E now2) by assumption. cbn [world fst snd].
    rewrite set_reachable. rewrite set_cases.
    destruct (JsDate.setHours _ _ _) as [expiresAt|]; [|reflexivity].
    cbv zeta. cbn [world fst snd].
    destruct (reachable w) eqn:Hr; [|reflexivity].
    unfold withTable; cbn [reachable cacheTable]. rewrite Hr.
    f_equal. apply insert_insert_eq.
  - intros key' v ttl now Hne. now apply set_frame.
Qed.

(** X3. While Supabase answers, [delete] removes the row of its key: [get]
    finds nothing under the key at any later time, whether Supabase answers
    then or not, and the other keys are as before. *)
Theorem delete_then_get (key : string) (w : World) :
  reachable w = true ->
  let table := cacheTable (world (delete key w)) in
  table !! key = None
  /\ (forall later up,
        result (get later key {| cacheTable := table; reachable := up |}) = None)
  /\ forall key', key' <> key -> table !! key' = cacheTable w !! key'.
Proof.
  intros Hr. cbv zeta. unfold delete, Supabase.deleteEq. rewrite Hr.
  cbn [world fst snd]. unfold withTable; cbn [cacheTable].
  split; [apply lookup_delete_eq | split].
  - intros later up. rewrite get_cases. cbn [reachable cacheTable].
    rewrite lookup_delete_eq. now destruct up.
  - intros key' Hne. now apply lookup_delete_ne.
Qed.

(** X4. [get] never writes: it issues no upsert, it leaves every other key
    alone, and when it returns a value it leaves the whole table as it was. *)
Theorem get_only_removes (now : Z) (key : string) (w : World) :
  (forall k row, ~ In (CacheUpsert k row) (calls (get now key w)))
  /\ (forall key', key' <> key ->
        cacheTable (world (get now key w)) !! key' = cacheTable w !! key')
  /\ (forall v, result (get now key w) = Some v -> world (get now key w) = w)
  /\ (cacheTable (world (get now key w)) !! key = cacheTable w !! key
      \/ cacheTable (world (get now key w)) !! key = None).
Proof.
  split; [|split; [|split]].
  - intros k row H. apply calls_get in H as [H | H]; discriminate.
  - intros key' Hne. now apply get_frame.
  - intros v. rewrite get_cases. destruct (reachable w); [|discriminate].
    destruct (cacheTable w !! key) as [row|]; [|discriminate].
    destruct (now >? expires_at row); [discriminate | reflexivity].
  - rewrite get_cases. destruct (reachable w); [|now left].
    destruct (cacheTable w !! key) as [row|] eqn:Hrow; [|now left].
    destruct (now >? expires_at row); [right | now left].
    unfold world, withTable; simpl. apply lookup_delete_eq.
Qed.

(** X5. The cache fails soft: while Supabase does not answer, [get] returns
    [null] and [set] and [delete] change nothing. *)
Theorem cache_fails_soft (E : Env) (now : Z) (key : string) (v : Value) (ttl : float)
    (w : World) :
  reachable w = false ->
  result (get now key w) = None
  /\ world (get now key w) = w
  /\ world (set E now key v ttl w) = w
  /\ world (delete key w) = w.
Proof.
  intros Hr. rewrite get_cases, set_cases, Hr.
  unfold delete, Supabase.deleteEq. rewrite Hr.
  repeat split. now destruct (JsDate.setHours _ _ _).
Qed.

Ltac each_hour h H :=
  assert (h = 0 \/ h = 1 \/ h = 2 \/ h = 3 \/ h = 4 \/ h = 5 \/ h = 6 \/ h = 7
          \/ h = 8 \/ h = 9 \/ h = 10 \/ h = 11 \/ h = 12 \/ h = 13 \/ h = 14
          \/ h = 15 \/ h = 16 \/ h = 17 \/ h = 18 \/ h = 19 \/ h = 20 \/ h = 21
          \/ h = 22 \/ h = 23) as Hcases by lia;
  clear H; repeat destruct Hcases as [-> | Hcases]; try subst h.

Lemma truncate_plus_nonfinite (h : Z) :
  0 <= h < 24 ->
  JsDate.truncate (PrimFloat.add (PrimFloat.of_uint63 (Uint63.of_Z h)) nan) = None
  /\ JsDate.truncate (PrimFloat.add (PrimFloat.of_uint63 (Uint63.of_Z h)) infinity) = None
  /\ JsDate.truncate (PrimFloat.add (PrimFloat.of_uint63 (Uint63.of_Z h)) neg_infinity)
     = None.
Proof. intros H. each_hour h H; vm_compute; repeat split. Qed.

(** X6. A [ttlHours] that is not a finite number ([NaN], [Infinity],
    [-Infinity]) makes the expiry an invalid date: [set] touches neither the
    table nor Supabase. *)
Theorem set_nonfinite_ttl (E : Env) (now : Z) (key : string) (v : Value) (w : World) :
  set E now key v nan w = (tt, w, [])
  /\ set E now key v infinity w = (tt, w, [])
  /\ set E now key v neg_infinity w = (tt, w, []).
Proof.
  rewrite !set_cases. unfold JsDate.setHours, JsDate.MakeTime, JsDate.getHours.
  destruct (truncate_plus_nonfinite
              (JsDate.HourFromTime (JsDate.LocalTime (LocalTZA E) now))
              (HourFromTime_range _)) as (-> & -> & ->).
  repeat split.
Qed.

End CacheStore.

(** ** The resolver and its cache *)

Section GeocodingCache.

Import CacheService GeocodingService.

(** What the provider chain answers for a location: Google's first
    candidate, else Nominatim's. *)
Lemma geocode_miss (E : Env) (nowGet nowSet : Z) (loc : string) (w : World) :
  passes (result (get nowGet (cacheKey loc) w)) = false ->
  result (geocodeLocation E nowGet nowSet loc w)
  = match result (geocodeWithGoogle E loc w) with
    | Some c => Some (VCoords c)
    | None => match result (geocodeWithNominatim E loc w) with
              | Some c => Some (VCoords c)
              | None => None
              end
    end.
Proof.
  intros Hmiss. rewrite geocodeLocation_cases. cbv zeta. rewrite Hmiss.
  destruct (result (geocodeWithGoogle E loc w)); [reflexivity|].
  now destruct (result (geocodeWithNominatim E loc w)).
Qed.

Lemma geocode_miss_world (E : Env) (nowGet nowSet : Z) (loc : string) (c : Coords)
    (w : World) :
  passes (result (get nowGet (cacheKey loc) w)) = false ->
  result (geocodeLocation E nowGet nowSet loc w) = Some (VCoords c) ->
  world (geocodeLocation E nowGet nowSet loc w)
  = world (set E nowSet (cacheKey loc) (VCoords c) defaultTtlHours
             (world (get nowGet (cacheKey loc) w))).
Proof.
  intros Hmiss. rewrite geocodeLocation_cases. cbv zeta. rewrite Hmiss.
  destruct (result (geocodeWithGoogle E loc w)) as [g|].
  - cbn [result world fst snd]. now intros [= ->].
  - destruct (result (geocodeWithNominatim E loc w)) as [n|].
    + cbn [result world fst snd]. now intros [= ->].
    + discriminate.
Qed.

(** X7. Away from the changes of the clocks, a resolution obtained from a
    provider (coordinates that are finite numbers) is served from the cache
    for the next hour: a call for the same text up to one hour after the
    write returns the same coordinates and only reads the cache, whatever
    the providers would answer by then. *)
Theorem geocode_served_from_cache (E E' : Env) (nowGet nowSet later nowSet' : Z)
    (loc : string) (c : Coords) (w : World) :
  reachable w = true ->
  clockReading nowSet ->
  steadyClock (LocalTZA E) nowSet ->
  storable c = true ->
  passes (result (get nowGet (cacheKey loc) w)) = false ->
  result (geocodeLocation E nowGet nowSet loc w) = Some (VCoords c) ->
  later <= nowSet + JsDate.msPerHour ->
  let first := geocodeLocation E nowGet nowSet loc w in
  geocodeLocation E' later nowSet' loc (world first)
  = (Some (VCoords c), world first, [CacheSelect (cacheKey loc)]).
Proof.
  intros Hr Hclock Hsteady _ Hmiss Hres Hlater. cbv zeta.
  rewrite (geocode_miss_world E nowGet nowSet loc c w Hmiss Hres).
  rewrite set_default_row by assumption. rewrite get_reachable, Hr.
  cbn [world fst snd].
  set (row := {| value := VCoords c; expires_at := nowSet + JsDate.msPerHour |}).
  set (w1 := world (get nowGet (cacheKey loc) w)).
  set (stored := withTable (<[cacheKey loc := row]> (cacheTable w1)) w1).
  assert (Hrs : reachable stored = true).
  { unfold stored, withTable; simpl. unfold w1. now rewrite get_reachable. }
  assert (Hget : get later (cacheKey loc) stored
                 = (Some (VCoords c), stored, [CacheSelect (cacheKey loc)])).
  { apply (get_fresh stored later (cacheKey loc) row Hrs); [apply lookup_insert_eq|].
    exact Hlater. }
  rewrite geocode_cache_hit by (rewrite Hget; reflexivity). exact Hget.
Qed.

(** X8. A cache that does not answer does not fail the resolution: the
    answer is the provider chain's, and nothing is stored. *)
Theorem geocode_without_cache (E : Env) (nowGet nowSet : Z) (loc : string) (w : World) :
  reachable w = false ->
  result (geocodeLocation E nowGet nowSet loc w)
  = match result (geocodeWithGoogle E loc w) with
    | Some c => Some (VCoords c)
    | None => match result (geocodeWithNominatim E loc w) with
              | Some c => Some (VCoords c)
              | None => None
              end
    end
  /\ world (geocodeLocation E nowGet nowSet loc w) = w.
Proof.
  intros Hr.
  assert (Hget : get nowGet (cacheKey loc) w = (None, w, [CacheSelect (cacheKey loc)]))
    by now rewrite get_cases, Hr.
  split.
  - apply geocode_miss. now rewrite Hget.
  - rewrite geocodeLocation_cases. cbv zeta. rewrite Hget.
    cbn [passes result world fst snd].
    assert (Hset : forall c, world (set E nowSet (cacheKey loc) (VCoords c)
                                      defaultTtlHours w) = w).
    { intros c. rewrite set_cases, Hr. now destruct (JsDate.setHours _ _ _). }
    destruct (result (geocodeWithGoogle E loc w)); [apply Hset|].
    destruct (result (geocodeWithNominatim E loc w)); [apply Hset | reflexivity].
Qed.

(** X9. Without a usable Google key (none, the empty one or the placeholder
    of the sample configuration) the Google method answers [null] whatever
    the API would say, so a resolution that misses the cache is Nominatim's
    first candidate, or [null]. *)
Theorem geocode_without_google_key (E : Env) (nowGet nowSet : Z) (loc : string)
    (w : World) :
  googleApiKey E = None \/ googleApiKey E = Some ""
    \/ googleApiKey E = Some "your-google-maps-api-key" ->
  passes (result (get nowGet (cacheKey loc) w)) = false ->
  result (geocodeWithGoogle E loc w) = None
  /\ result (geocodeLocation E nowGet nowSet loc w)
     = match nominatimSearchApi E loc with
       | Some (first :: _) => Some (VCoords first)
       | _ => None
       end.
Proof.
  intros Hkey Hmiss.
  assert (Hg : result (geocodeWithGoogle E loc w) = None).
  { unfold geocodeWithGoogle, bind, emit, ret, result.
    destruct Hkey as [-> | [-> | ->]]; reflexivity. }
  split; [exact Hg|].
  rewrite geocode_miss by assumption. rewrite Hg.
  unfold geocodeWithNominatim, bind, emit, ret, result.
  destruct (nominatimSearchApi E loc) as [[|c l]|]; reflexivity.
Qed.

End GeocodingCache.

(** ** The extraction and its cache *)

Section ExtractionCache.

Import CacheService GeminiService.

Lemma extract_miss_failure (E : Env) (nowGet nowSet : Z) (text : string) (w : World) :
  passes (result (get nowGet (cacheKey text) w)) = false ->
  nerApi E text = None ->
  extractLocation E nowGet nowSet text w
  = (VLocation failureSentinel, world (get nowGet (cacheKey text) w),
     (calls (get nowGet (cacheKey text) w) ++ [NerRequest text])%list).
Proof.
  intros Hmiss Hner. rewrite extractLocation_cases. cbv zeta. rewrite Hner.
  unfold passes in Hmiss.
  destruct (result (get nowGet (cacheKey text) w)) as [v|]; [now rewrite Hmiss|].
  reflexivity.
Qed.

Lemma extract_miss_calls (E : Env) (nowGet nowSet : Z) (text : string) (w : World) :
  passes (result (get nowGet (cacheKey text) w)) = false ->
  In (NerRequest text) (calls (extractLocation E nowGet nowSet text w)).
Proof.
  intros Hmiss. rewrite extractLocation_cases. cbv zeta. unfold passes in Hmiss.
  destruct (result (get nowGet (cacheKey text) w)) as [v|]; [rewrite Hmiss|];
    destruct (nerApi E text); cbn [calls snd]; rewrite !in_app_iff; simpl; auto.
Qed.

(** X10. A failed extraction is not cached: when the model's request fails,
    the sentinel is returned, nothing is written, and the next call, at any
    time, asks the model again. *)
Theorem extraction_failure_not_cached (E E' : Env) (nowGet nowSet nowGet' nowSet' : Z)
    (text : string) (w : World) :
  passes (result (get nowGet (cacheKey text) w)) = false ->
  nerApi E text = None ->
  let first := extractLocation E nowGet nowSet text w in
  result first = VLocation failureSentinel
  /\ (forall key row, ~ In (CacheUpsert key row) (calls first))
  /\ In (NerRequest text) (calls (extractLocation E' nowGet' nowSet' text (world first))).
Proof.
  intros Hmiss Hner. cbv zeta. rewrite (extract_miss_failure E) by assumption.
  cbn [result world calls fst snd]. split; [reflexivity | split].
  - intros key row H. apply in_app_or in H as [H | [H | []]]; [|discriminate].
    apply calls_get in H as [H | H]; discriminate.
  - apply extract_miss_calls. now apply get_miss_again.
Qed.

(** X11. Away from the changes of the clocks, a fresh extraction is served
    from the cache for the next hour: when the model answered, a call for
    the same text up to one hour after the write returns the same location
    and does not ask the model. *)
Theorem extraction_served_from_cache (E E' : Env) (nowGet nowSet later nowSet' : Z)
    (text : string) (entities : list Entity) (w : World) :
  reachable w = true ->
  clockReading nowSet ->
  steadyClock (LocalTZA E) nowSet ->
  passes (result (get nowGet (cacheKey text) w)) = false ->
  nerApi E text = Some entities ->
  later <= nowSet + JsDate.msPerHour ->
  let first := extractLocation E nowGet nowSet text w in
  extractLocation E' later nowSet' text (world first)
  = (result first, world first, [CacheSelect (cacheKey text)]).
Proof.
  intros Hr Hclock Hsteady Hmiss Hner Hlater. cbv zeta.
  pose proof (extractLocation_cases E nowGet nowSet text w) as Hex.
  cbv zeta in Hex. rewrite Hner in Hex.
  rewrite set_default_row in Hex by assumption. rewrite get_reachable, Hr in Hex.
  cbn [world calls fst snd] in Hex.
  set (v := VLocation (if JsString.truthy (locationsOf entities)
                       then locationsOf entities else "Unknown")) in *.
  set (row := {| value := v; expires_at := nowSet + JsDate.msPerHour |}) in *.
  set (w1 := (get nowGet (cacheKey text) w).1.2) in *.
  set (stored := withTable (<[cacheKey text := row]> (cacheTable w1)) w1) in *.
  assert (Hfirst : extractLocation E nowGet nowSet text w
                   = (v, stored,
                      ((get nowGet (cacheKey text) w).2
                       ++ [NerRequest text; CacheUpsert (cacheKey text) row])%list)).
  { rewrite Hex. unfold passes in Hmiss.
    destruct (result (get nowGet (cacheKey text) w)) as [x|]; [now rewrite Hmiss|].
    reflexivity. }
  rewrite Hfirst. cbn [result world fst snd].
  assert (Hrs : reachable stored = true).
  { unfold stored, withTable; simpl. unfold w1.
    pose proof (get_reachable nowGet (cacheKey text) w) as H. unfold world in H.
    now rewrite H. }
  rewrite extractLocation_cases. cbv zeta.
  rewrite (get_fresh stored later (cacheKey text) row Hrs);
    [|apply lookup_insert_eq | exact Hlater].
  cbn [result world calls fst snd value row]. reflexivity.
Qed.

End ExtractionCache.

(** ** Cache keys *)

Section Base64.

Import JsString.

Lemma string_ind3 (P : string -> Prop) :
  P "" ->
  (forall a, P (String a "")) ->
  (forall a b, P (String a (String b ""))) ->
  (forall a b c rest, P rest -> P (String a (String b (String c rest)))) ->
  forall s, P s.
Proof.
  intros H0 H1 H2 H3.
  assert (H : forall s, P s /\ (forall a, P (String a s))
                        /\ (forall a b, P (String a (String b s)))).
  { induction s as [|c s (IH0 & IH1 & IH2)].
    - repeat split; auto.
    - repeat split; auto. }
  intros s. apply H.
Qed.

(** The 64 characters of the alphabet are distinct and none is the
    padding character. *)
Lemma sextet_in (n : N) : (n < 64)%N -> In n sextets.
Proof.
  intros H. unfold sextets. apply in_map_iff. exists (N.to_nat n).
  split; [apply N2Nat.id|]. apply in_seq. lia.
Qed.

Lemma base64Char_distinct :
  forallb (fun m => forallb (fun n =>
    implb (Ascii.eqb (base64Char m) (base64Char n)) (N.eqb m n)) sextets) sextets = true
  /\ forallb (fun m => negb (Ascii.eqb (base64Char m) "=")) sextets = true.
Proof. split; vm_compute; reflexivity. Qed.

Lemma base64Char_inj (m n : N) :
  (m < 64)%N -> (n < 64)%N -> base64Char m = base64Char n -> m = n.
Proof.
  intros Hm Hn H. destruct base64Char_distinct as [Hd _].
  rewrite forallb_forall in Hd. specialize (Hd m (sextet_in m Hm)).
  rewrite forallb_forall in Hd. specialize (Hd n (sextet_in n Hn)).
  rewrite H, Ascii.eqb_refl in Hd. simpl in Hd. now apply N.eqb_eq.
Qed.

Lemma base64Char_not_pad (n : N) : (n < 64)%N -> base64Char n <> "="%char.
Proof.
  intros Hn H. destruct base64Char_distinct as [_ Hd].
  rewrite forallb_forall in Hd. specialize (Hd n (sextet_in n Hn)).
  rewrite H in Hd. discriminate.
Qed.

(** The bit operations of the encoder, as arithmetic. *)
Lemma lor_small :
  forallb (fun p => forallb (fun u =>
    N.eqb (N.lor (N.shiftl (N.of_nat p) 4) (N.of_nat u)) (N.of_nat p * 16 + N.of_nat u))
    (seq 0 16)) (seq 0 4) = true
  /\ forallb (fun q => forallb (fun v =>
       N.eqb (N.lor (N.shiftl (N.of_nat q) 2) (N.of_nat v)) (N.of_nat q * 4 + N.of_nat v))
       (seq 0 4)) (seq 0 16) = true.
Proof. split; vm_compute; reflexivity. Qed.

Lemma lor_high2 (p u : N) :
  (p < 4)%N -> (u < 16)%N -> N.lor (N.shiftl p 4) u = (p * 16 + u)%N.
Proof.
  intros Hp Hu. destruct lor_small as [H _]. rewrite forallb_forall in H.
  specialize (H (N.to_nat p)). rewrite in_seq in H.
  specialize (H ltac:(lia)). rewrite forallb_forall in H.
  specialize (H (N.to_nat u)). rewrite in_seq in H. specialize (H ltac:(lia)).
  rewrite !N2Nat.id in H. now apply N.eqb_eq.
Qed.

Lemma lor_high4 (q v : N) :
  (q < 16)%N -> (v < 4)%N -> N.lor (N.shiftl q 2) v = (q * 4 + v)%N.
Proof.
  intros Hq Hv. destruct lor_small as [_ H]. rewrite forallb_forall in H.
  specialize (H (N.to_nat q)). rewrite in_seq in H.
  specialize (H ltac:(lia)). rewrite forallb_forall in H.
  specialize (H (N.to_nat v)). rewrite in_seq in H. specialize (H ltac:(lia)).
  rewrite !N2Nat.id in H. now apply N.eqb_eq.
Qed.

Lemma byte_bound (a : ascii) : (N_of_ascii a < 256)%N.
Proof. apply N_ascii_bounded. Qed.

Lemma land_mod (x : N) :
  N.land x 3 = (x mod 4)%N /\ N.land x 15 = (x mod 16)%N /\ N.land x 63 = (x mod 64)%N.
Proof.
  repeat split.
  - apply (N.land_ones x 2).
  - apply (N.land_ones x 4).
  - apply (N.land_ones x 6).
Qed.

Lemma shiftr_div (x : N) :
  N.shiftr x 2 = (x / 4)%N /\ N.shiftr x 4 = (x / 16)%N /\ N.shiftr x 6 = (x / 64)%N.
Proof.
  repeat split.
  - apply (N.shiftr_div_pow2 x 2).
  - apply (N.shiftr_div_pow2 x 4).
  - apply (N.shiftr_div_pow2 x 6).
Qed.

Lemma shiftl_mul (x : N) :
  N.shiftl x 4 = (x * 16)%N /\ N.shiftl x 2 = (x * 4)%N.
Proof.
  split.
  - apply (N.shiftl_mul_pow2 x 4).
  - apply (N.shiftl_mul_pow2 x 2).
Qed.


(** The four sextets of a group of three bytes. *)
Lemma sextet_values (x y z : N) :
  (x < 256)%N -> (y < 256)%N -> (z < 256)%N ->
  N.shiftr x 2 = (x / 4)%N
  /\ N.shiftl (N.land x 3) 4 = (x mod 4 * 16)%N
  /\ N.lor (N.shiftl (N.land x 3) 4) (N.shiftr y 4) = (x mod 4 * 16 + y / 16)%N
  /\ N.shiftl (N.land y 15) 2 = (y mod 16 * 4)%N
  /\ N.lor (N.shiftl (N.land y 15) 2) (N.shiftr z 6) = (y mod 16 * 4 + z / 64)%N
  /\ N.land z 63 = (z mod 64)%N.
Proof.
  intros Hx Hy Hz.
  destruct (land_mod x) as (Hx3 & _ & _), (land_mod y) as (_ & Hy15 & _),
    (land_mod z) as (_ & _ & Hz63).
  destruct (shiftr_div x) as (Hx2 & _ & _), (shiftr_div y) as (_ & Hy4 & _),
    (shiftr_div z) as (_ & _ & Hz6).
  rewrite Hx3, Hy15, Hz63, Hx2, Hy4, Hz6.
  assert (x mod 4 < 4)%N by (apply N.mod_lt; lia).
  assert (y mod 16 < 16)%N by (apply N.mod_lt; lia).
  assert (y / 16 < 16)%N by (apply N.Div0.div_lt_upper_bound; lia).
  assert (z / 64 < 4)%N by (apply N.Div0.div_lt_upper_bound; lia).
  rewrite lor_high2, lor_high4 by assumption.
  destruct (shiftl_mul (x mod 4)) as [-> _], (shiftl_mul (y mod 16)) as [_ ->].
  repeat split.
Qed.


Lemma bytes_of_sextets (x y z x' y' z' : N) :
  (x < 256)%N -> (y < 256)%N -> (z < 256)%N ->
  (x' < 256)%N -> (y' < 256)%N -> (z' < 256)%N ->
  (x / 4 = x' / 4)%N ->
  (x mod 4 * 16 + y / 16 = x' mod 4 * 16 + y' / 16)%N ->
  (y mod 16 * 4 + z / 64 = y' mod 16 * 4 + z' / 64)%N ->
  (z mod 64 = z' mod 64)%N ->
  x = x' /\ y = y' /\ z = z'.
Proof.
  intros Hx Hy Hz Hx' Hy' Hz' H1 H2 H3 H4.
  pose proof (N.div_mod x 4 ltac:(lia)). pose proof (N.div_mod x' 4 ltac:(lia)).
  pose proof (N.div_mod y 16 ltac:(lia)). pose proof (N.div_mod y' 16 ltac:(lia)).
  pose proof (N.div_mod z 64 ltac:(lia)). pose proof (N.div_mod z' 64 ltac:(lia)).
  pose proof (N.mod_lt x 4 ltac:(lia)). pose proof (N.mod_lt x' 4 ltac:(lia)).
  pose proof (N.mod_lt y 16 ltac:(lia)). pose proof (N.mod_lt y' 16 ltac:(lia)).
  pose proof (N.mod_lt z 64 ltac:(lia)). pose proof (N.mod_lt z' 64 ltac:(lia)).
  assert (y / 16 < 16)%N by (apply N.Div0.div_lt_upper_bound; lia).
  assert (y' / 16 < 16)%N by (apply N.Div0.div_lt_upper_bound; lia).
  assert (z / 64 < 4)%N by (apply N.Div0.div_lt_upper_bound; lia).
  assert (z' / 64 < 4)%N by (apply N.Div0.div_lt_upper_bound; lia).
  generalize dependent (x / 4)%N. generalize dependent (x' / 4)%N.
  generalize dependent (x mod 4)%N. generalize dependent (x' mod 4)%N.
  generalize dependent (y / 16)%N. generalize dependent (y' / 16)%N.
  generalize dependent (y mod 16)%N. generalize dependent (y' mod 16)%N.
  generalize dependent (z / 64)%N. generalize dependent (z' / 64)%N.
  generalize dependent (z mod 64)%N. generalize dependent (z' mod 64)%N.
  intros. lia.
Qed.

Lemma bytes_of_sextets2 (x y x' y' : N) :
  (y < 256)%N -> (y' < 256)%N ->
  (x / 4 = x' / 4)%N ->
  (x mod 4 * 16 + y / 16 = x' mod 4 * 16 + y' / 16)%N ->
  (y mod 16 * 4 = y' mod 16 * 4)%N ->
  x = x' /\ y = y'.
Proof.
  intros Hy Hy' H1 H2 H3.
  pose proof (N.div_mod x 4 ltac:(lia)). pose proof (N.div_mod x' 4 ltac:(lia)).
  pose proof (N.div_mod y 16 ltac:(lia)). pose proof (N.div_mod y' 16 ltac:(lia)).
  pose proof (N.mod_lt x 4 ltac:(lia)). pose proof (N.mod_lt x' 4 ltac:(lia)).
  pose proof (N.mod_lt y 16 ltac:(lia)). pose proof (N.mod_lt y' 16 ltac:(lia)).
  assert (y / 16 < 16)%N by (apply N.Div0.div_lt_upper_bound; lia).
  assert (y' / 16 < 16)%N by (apply N.Div0.div_lt_upper_bound; lia).
  generalize dependent (x / 4)%N. generalize dependent (x' / 4)%N.
  generalize dependent (x mod 4)%N. generalize dependent (x' mod 4)%N.
  generalize dependent (y / 16)%N. generalize dependent (y' / 16)%N.
  generalize dependent (y mod 16)%N. generalize dependent (y' mod 16)%N.
  intros. lia.
Qed.

Lemma sextet_bounds (x y z : N) :
  (x < 256)%N -> (y < 256)%N -> (z < 256)%N ->
  (x / 4 < 64)%N /\ (x mod 4 * 16 < 64)%N /\ (x mod 4 * 16 + y / 16 < 64)%N
  /\ (y mod 16 * 4 < 64)%N /\ (y mod 16 * 4 + z / 64 < 64)%N /\ (z mod 64 < 64)%N.
Proof.
  intros Hx Hy Hz.
  pose proof (N.mod_lt x 4 ltac:(lia)). pose proof (N.mod_lt y 16 ltac:(lia)).
  pose proof (N.mod_lt z 64 ltac:(lia)).
  assert (x / 4 < 64)%N by (apply N.Div0.div_lt_upper_bound; lia).
  assert (y / 16 < 16)%N by (apply N.Div0.div_lt_upper_bound; lia).
  assert (z / 64 < 4)%N by (apply N.Div0.div_lt_upper_bound; lia).
  repeat split; lia.
Qed.

Lemma N_of_ascii_inj (a b : ascii) : N_of_ascii a = N_of_ascii b -> a = b.
Proof.
  intros H. rewrite <- (ascii_N_embedding a), <- (ascii_N_embedding b). now rewrite H.
Qed.

(** What the encoder writes for groups of one, two and three bytes. *)
Lemma base64_groups (a b c : ascii) (rest : string) :
  let x := N_of_ascii a in
  let y := N_of_ascii b in
  let z := N_of_ascii c in
  base64 (String a "")
  = String (base64Char (x / 4)) (String (base64Char (x mod 4 * 16)) "==")
  /\ base64 (String a (String b ""))
     = String (base64Char (x / 4))
         (String (base64Char (x mod 4 * 16 + y / 16))
            (String (base64Char (y mod 16 * 4)) "="))
  /\ base64 (String a (String b (String c rest)))
     = String (base64Char (x / 4))
         (String (base64Char (x mod 4 * 16 + y / 16))
            (String (base64Char (y mod 16 * 4 + z / 64))
               (String (base64Char (z mod 64)) (base64 rest)))).
Proof.
  cbv zeta. cbn [base64].
  destruct (sextet_values (N_of_ascii a) (N_of_ascii b) (N_of_ascii c)
              (byte_bound a) (byte_bound b) (byte_bound c))
    as (-> & -> & -> & -> & -> & ->).
  repeat split.
Qed.


Ltac sextet_facts a b c :=
  let H := fresh "Hb" in
  pose proof (sextet_bounds (N_of_ascii a) (N_of_ascii b) (N_of_ascii c)
                (byte_bound a) (byte_bound b) (byte_bound c)) as H;
  destruct H as (? & ? & ? & ? & ? & ?).

Ltac same_sextet H :=
  apply base64Char_inj in H; [|assumption..].

Ltac pad_clash :=
  match goal with
  | H : base64Char ?n = "="%char |- _ =>
      apply base64Char_not_pad in H; [contradiction | assumption]
  | H : "="%char = base64Char ?n |- _ =>
      symmetry in H; apply base64Char_not_pad in H; [contradiction | assumption]
  end.

(** The encoder is injective. *)
Lemma base64_inj (s1 s2 : string) : base64 s1 = base64 s2 -> s1 = s2.
Proof.
  revert s2. pattern s1. apply string_ind3; clear s1;
    [ | intros a | intros a b | intros a b c rest IH ];
    intros s2; destruct s2 as [ | a2 [ | b2 s2 ] ]; try destruct s2 as [ | c2 rest2 ];
    try (destruct (base64_groups a a a "") as (-> & _ & _));
    try (destruct (base64_groups a b a "") as (_ & -> & _));
    try (destruct (base64_groups a b c rest) as (_ & _ & ->));
    try (destruct (base64_groups a2 a2 a2 "") as (-> & _ & _));
    try (destruct (base64_groups a2 b2 a2 "") as (_ & -> & _));
    try (destruct (base64_groups a2 b2 c2 rest2) as (_ & _ & ->));
    cbv zeta; intros H; try discriminate H; try reflexivity.
  - (* one byte, one byte *)
    injection H as H1 H2. sextet_facts a a a. sextet_facts a2 a2 a2.
    same_sextet H1. same_sextet H2.
    f_equal. apply N_of_ascii_inj.
    pose proof (byte_bound a). pose proof (byte_bound a2).
    pose proof (N.div_mod (N_of_ascii a) 4 ltac:(lia)).
    pose proof (N.div_mod (N_of_ascii a2) 4 ltac:(lia)). lia.
  - injection H; intros; sextet_facts a2 b2 a2; pad_clash.
  - injection H; intros; sextet_facts a2 b2 c2; pad_clash.
  - injection H; intros; sextet_facts a b a; pad_clash.
  - (* two bytes, two bytes *)
    injection H as H1 H2 H3. sextet_facts a b a. sextet_facts a2 b2 a2.
    same_sextet H1. same_sextet H2. same_sextet H3.
    destruct (bytes_of_sextets2 (N_of_ascii a) (N_of_ascii b)
                (N_of_ascii a2) (N_of_ascii b2)) as (Ha & Hb);
      try assumption; try apply byte_bound.
    apply N_of_ascii_inj in Ha, Hb. now subst.
  - injection H; intros; sextet_facts a2 b2 c2; pad_clash.
  - injection H; intros; sextet_facts a b c; pad_clash.
  - injection H; intros; sextet_facts a b c; pad_clash.
  - (* three bytes and the rest *)
    injection H as H1 H2 H3 H4 Hrest. sextet_facts a b c. sextet_facts a2 b2 c2.
    same_sextet H1. same_sextet H2. same_sextet H3. same_sextet H4.
    destruct (bytes_of_sextets (N_of_ascii a) (N_of_ascii b) (N_of_ascii c)
                (N_of_ascii a2) (N_of_ascii b2) (N_of_ascii c2)) as (Ha & Hb & Hc);
      try assumption; try apply byte_bound.
    apply N_of_ascii_inj in Ha, Hb, Hc. subst. f_equal. f_equal. f_equal.
    now apply IH.
Qed.

End Base64.

Section Keys.

Import CacheService.

(** The result of [get] depends on the row of its key only. *)
Lemma get_result_local (now : Z) (key : string) (w1 w2 : World) :
  reachable w1 = reachable w2 ->
  cacheTable w1 !! key = cacheTable w2 !! key ->
  result (get now key w1) = result (get now key w2).
Proof.
  intros Hr Hk. rewrite !get_cases, Hr, Hk. destruct (reachable w2); [|reflexivity].
  destruct (cacheTable w2 !! key) as [row|]; [|reflexivity].
  now destruct (now >? expires_at row).
Qed.

Lemma geocode_result_local (E : Env) (nowGet nowSet : Z) (loc : string) (w1 w2 : World) :
  reachable w1 = reachable w2 ->
  cacheTable w1 !! GeocodingService.cacheKey loc
    = cacheTable w2 !! GeocodingService.cacheKey loc ->
  result (GeocodingService.geocodeLocation E nowGet nowSet loc w1)
  = result (GeocodingService.geocodeLocation E nowGet nowSet loc w2).
Proof.
  intros Hr Hk.
  pose proof (get_result_local nowGet _ w1 w2 Hr Hk) as Hget.
  rewrite !geocodeLocation_cases. cbv zeta. rewrite Hget.
  destruct (passes (result (get nowGet (GeocodingService.cacheKey loc) w2))).
  - exact Hget.
  - assert (Hg : result (GeocodingService.geocodeWithGoogle E loc w1)
                 = result (GeocodingService.geocodeWithGoogle E loc w2))
      by now rewrite (geocodeWithGoogle_run E loc w1 w2).
    assert (Hn : result (GeocodingService.geocodeWithNominatim E loc w1)
                 = result (GeocodingService.geocodeWithNominatim E loc w2))
      by now rewrite (geocodeWithNominatim_run E loc w1 w2).
    rewrite Hg, Hn.
    destruct (result (GeocodingService.geocodeWithGoogle E loc w2)); [reflexivity|].
    now destruct (result (GeocodingService.geocodeWithNominatim E loc w2)).
Qed.

(** A service reads and writes the row of its own key only. *)
Lemma geocodeLocation_frame (E : Env) (nowGet nowSet : Z) (loc key' : string) (w : World) :
  key' <> GeocodingService.cacheKey loc ->
  cacheTable (world (GeocodingService.geocodeLocation E nowGet nowSet loc w)) !! key'
  = cacheTable w !! key'.
Proof.
  intros Hne. rewrite geocodeLocation_cases. cbv zeta.
  destruct (passes _); [now apply get_frame|].
  destruct (result (GeocodingService.geocodeWithGoogle E loc w));
    [|destruct (result (GeocodingService.geocodeWithNominatim E loc w))];
    cbn [world fst snd]; rewrite ?set_frame by assumption; now apply get_frame.
Qed.

Lemma geocodeLocation_reachable (E : Env) (nowGet nowSet : Z) (loc : string) (w : World) :
  reachable (world (GeocodingService.geocodeLocation E nowGet nowSet loc w)) = reachable w.
Proof.
  rewrite geocodeLocation_cases. cbv zeta.
  destruct (passes _); [apply get_reachable|].
  destruct (result (GeocodingService.geocodeWithGoogle E loc w));
    [|destruct (result (GeocodingService.geocodeWithNominatim E loc w))];
    cbn [world fst snd]; rewrite ?set_reachable; apply get_reachable.
Qed.

Lemma extractLocation_frame (E : Env) (nowGet nowSet : Z) (text key' : string) (w : World) :
  key' <> GeminiService.cacheKey text ->
  cacheTable (world (GeminiService.extractLocation E nowGet nowSet text w)) !! key'
  = cacheTable w !! key'.
Proof.
  intros Hne. rewrite extractLocation_cases. cbv zeta.
  destruct (result (get _ _ w)) as [v|]; [destruct (truthy v)|];
    try destruct (nerApi E text);
    cbn [world fst snd]; rewrite ?set_frame by assumption; now apply get_frame.
Qed.

Lemma extractLocation_reachable (E : Env) (nowGet nowSet : Z) (text : string) (w : World) :
  reachable (world (GeminiService.extractLocation E nowGet nowSet text w)) = reachable w.
Proof.
  rewrite extractLocation_cases. cbv zeta.
  destruct (result (get _ _ w)) as [v|]; [destruct (truthy v)|];
    try destruct (nerApi E text);
    cbn [world fst snd]; rewrite ?set_reachable; apply get_reachable.
Qed.

(** X12. The geocoding and extraction keys identify their text (the base64
    encoding is injective), and the keys of the geocoding, extraction and
    feed services are never the same. *)
Theorem cache_keys_separate (s1 s2 : string) :
  (JsString.base64 s1 = JsString.base64 s2 -> s1 = s2)
  /\ (GeocodingService.cacheKey s1 = GeocodingService.cacheKey s2 -> s1 = s2)
  /\ (GeminiService.cacheKey s1 = GeminiService.cacheKey s2 -> s1 = s2)
  /\ GeocodingService.cacheKey s1 <> GeminiService.cacheKey s2
  /\ (forall disasterId tags,
        GeocodingService.cacheKey s1 <> SocialMediaService.cacheKey disasterId tags
        /\ GeminiService.cacheKey s1 <> SocialMediaService.cacheKey disasterId tags).
Proof.
  split; [apply base64_inj|]. split; [|split].
  - unfold GeocodingService.cacheKey. intros H.
    apply (String.app_inj "geocode_") in H. now apply base64_inj.
  - unfold GeminiService.cacheKey. intros H.
    apply (String.app_inj "location_extract_") in H. now apply base64_inj.
  - split; [discriminate|]. intros disasterId tags. split; discriminate.
Qed.

(** X13. Resolutions do not interfere: resolving one text, or extracting
    from any text, leaves the cached resolution of another text as it was,
    so a later resolution of that text answers as it would have without
    it. *)
Theorem resolutions_do_not_interfere (E E' E'' : Env) (t1 t2 t3 t4 : Z)
    (loc other text : string) (w : World) :
  other <> loc ->
  result (GeocodingService.geocodeLocation E' t3 t4 loc
            (world (GeocodingService.geocodeLocation E t1 t2 other w)))
  = result (GeocodingService.geocodeLocation E' t3 t4 loc w)
  /\ result (GeocodingService.geocodeLocation E' t3 t4 loc
               (world (GeminiService.extractLocation E'' t1 t2 text w)))
     = result (GeocodingService.geocodeLocation E' t3 t4 loc w).
Proof.
  intros Hne. split; apply geocode_result_local.
  - apply geocodeLocation_reachable.
  - apply geocodeLocation_frame. intros H. apply Hne.
    unfold GeocodingService.cacheKey in H.
    apply (String.app_inj "geocode_") in H. symmetry. now apply base64_inj.
  - apply extractLocation_reachable.
  - apply extractLocation_frame. discriminate.
Qed.

End Keys.
(** ** The extracted phrase *)

Section Phrase.

Import JsString.

Lemma removeDoubleHash_other (a : ascii) (rest : string) :
  a <> "#"%char -> removeDoubleHash (String a rest) = String a (removeDoubleHash rest).
Proof.
  intros Ha. destruct a as [[] [] [] [] [] [] [] []];
    try reflexivity; now contradiction Ha.
Qed.

Lemma removeDoubleHash_hash (rest : string) :
  removeDoubleHash (String "#" rest)
  = match rest with
    | String b rest' =>
        if Ascii.eqb b "#" then removeDoubleHash rest'
        else String "#" (removeDoubleHash rest)
    | EmptyString => "#"
    end.
Proof.
  destruct rest as [|b rest']; [reflexivity|].
  destruct b as [[] [] [] [] [] [] [] []]; reflexivity.
Qed.

Lemma startsWith_hashes (a : ascii) (s : string) :
  startsWith (String a s) "##"
  = Ascii.eqb a "#" && match s with String b _ => Ascii.eqb b "#" | EmptyString => false end.
Proof.
  destruct s as [ | b [ | c s ] ]; simpl; rewrite ?andb_true_r, ?andb_false_r; reflexivity.
Qed.

Lemma removeDoubleHash_clean_aux (s : string) :
  includes (removeDoubleHash s) "##" = false
  /\ forall a, includes (removeDoubleHash (String a s)) "##" = false.
Proof.
  induction s as [|b s [IH0 IH1]].
  - split; [reflexivity|]. intros a. destruct (ascii_dec a "#") as [-> | Ha].
    + reflexivity.
    + rewrite removeDoubleHash_other by assumption. cbn [removeDoubleHash includes].
      rewrite startsWith_hashes. now rewrite andb_false_r.
  - split; [apply IH1|]. intros a. destruct (ascii_dec a "#") as [-> | Ha].
    + rewrite removeDoubleHash_hash. destruct (Ascii.eqb b "#") eqn:Hb; [exact IH0|].
      cbn [includes]. rewrite IH1, orb_false_r.
      assert (Hb' : b <> "#"%char) by (intros ->; now rewrite Ascii.eqb_refl in Hb).
      rewrite removeDoubleHash_other by assumption. cbn [startsWith].
      now rewrite Hb, andb_false_r.
    + rewrite removeDoubleHash_other by assumption. cbn [includes].
      rewrite IH1, orb_false_r, startsWith_hashes.
      apply Ascii.eqb_neq in Ha. now rewrite Ha.
Qed.

Lemma removeDoubleHash_clean (s : string) : includes (removeDoubleHash s) "##" = false.
Proof. apply removeDoubleHash_clean_aux. Qed.

End Phrase.

Section FreshExtraction.

Import CacheService GeminiService.

(** X14. A location taken from the model's answer is never empty and never
    contains the sub-word marker [##]: when the extraction is not served
    from the cache and the model answers, the result is [{ location }] with
    such a text. *)
Theorem fresh_location_is_clean (E : Env) (nowGet nowSet : Z) (text : string)
    (entities : list Entity) (w : World) :
  passes (result (get nowGet (cacheKey text) w)) = false ->
  nerApi E text = Some entities ->
  exists location,
    result (extractLocation E nowGet nowSet text w) = VLocation location
    /\ location <> ""
    /\ JsString.includes location "##" = false
    /\ (location = locationsOf entities \/ location = "Unknown").
Proof.
  intros Hmiss Hner.
  exists (if JsString.truthy (locationsOf entities) then locationsOf entities else "Unknown").
  split.
  - rewrite extractLocation_cases. cbv zeta. rewrite Hner. unfold passes in Hmiss.
    destruct (result (get nowGet (cacheKey text) w)) as [v|]; [now rewrite Hmiss|].
    reflexivity.
  - destruct (JsString.truthy (locationsOf entities)) eqn:Ht.
    + split; [intros H; now rewrite H in Ht|]. split; [|now left].
      apply removeDoubleHash_clean.
    + split; [discriminate|]. split; [reflexivity | now right].
Qed.

End FreshExtraction.

(** ** More on the feed *)

Section FeedMore.

Import SocialMediaService.

Lemma toLowerCase_lower_keyword (keyword : string) :
  In keyword urgentKeywords -> JsString.toLowerCase keyword = keyword.
Proof.
  unfold urgentKeywords. simpl. intros H.
  repeat (destruct H as [<- | H]; [reflexivity|]). contradiction.
Qed.

(** X15. The priority alerts are exactly the reports whose content
    contains, letter case ignored, one of the six urgency keywords. *)
Theorem priority_alerts_exact (reports : list Report) (report : Report) :
  In report (detectPriorityAlerts reports)
  <-> In report reports
      /\ exists keyword,
           In keyword urgentKeywords /\ containsIgnoringCase (content report) keyword.
Proof.
  unfold detectPriorityAlerts. rewrite filter_In. unfold isUrgent.
  rewrite existsb_exists. split.
  - intros [Hin (keyword & Hk & H)]. split; [assumption|]. exists keyword.
    split; [assumption|]. apply includes_toLowerCase.
    now rewrite (toLowerCase_lower_keyword keyword Hk).
  - intros [Hin (keyword & Hk & H)]. split; [assumption|]. exists keyword.
    split; [assumption|]. apply includes_toLowerCase in H.
    now rewrite (toLowerCase_lower_keyword keyword Hk) in H.
Qed.

Lemma matchesTags_mono (tags tags' : list string) (report : Report) :
  (forall tag, In tag tags -> In tag tags') ->
  matchesTags tags report = true -> matchesTags tags' report = true.
Proof.
  intros Hsub. unfold matchesTags. rewrite !existsb_exists.
  intros (tag & Hin & H). exists tag. auto.
Qed.

Lemma filter_sublist_mono (p q : Report -> bool) (l : list Report) :
  (forall x, p x = true -> q x = true) ->
  List.filter p l `sublist_of` List.filter q l.
Proof.
  intros Hpq. induction l as [|x l IH]; simpl; [constructor|].
  destruct (p x) eqn:Hp.
  - rewrite (Hpq x Hp). now apply sublist_skip.
  - destruct (q x); [now apply sublist_cons | exact IH].
Qed.

Lemma filter_sublist_self (p : Report -> bool) (l : list Report) :
  List.filter p l `sublist_of` l.
Proof.
  induction l as [|x l IH]; simpl; [constructor|].
  destruct (p x); [now apply sublist_skip | now apply sublist_cons].
Qed.

(** X16. The tag filter only narrows: what it keeps is a subsequence of the
    fetched items in their order, and asking for more tags never loses an
    item that fewer (but some) tags kept. *)
Theorem tag_filter_narrows (tags tags' : list string) (data : list Report) :
  filterByTags tags data `sublist_of` data
  /\ (tags <> [] -> (forall tag, In tag tags -> In tag tags') ->
      filterByTags tags data `sublist_of` filterByTags tags' data).
Proof.
  split.
  - unfold filterByTags. destruct (0 <? Z.of_nat (length tags)); [|reflexivity].
    apply filter_sublist_self.
  - intros Hne Hsub. unfold filterByTags.
    destruct tags as [|t tags]; [contradiction|].
    destruct tags' as [|t' tags']; [now pose proof (Hsub t (or_introl eq_refl))|].
    replace (0 <? Z.of_nat (length (t :: tags))) with true
      by (symmetry; apply Z.ltb_lt; simpl length; lia).
    replace (0 <? Z.of_nat (length (t' :: tags'))) with true
      by (symmetry; apply Z.ltb_lt; simpl length; lia).
    apply filter_sublist_mono. intros x. now apply matchesTags_mono.
Qed.

Lemma includes_empty (s : string) : JsString.includes s "" = true.
Proof. destruct s; reflexivity. Qed.

(** X17. An empty tag matches every keyword: when the tag list contains
    [""] (as the list split from [tags=food,] does), every item that has a
    keyword is kept, so the mock feed is returned whole. *)
Theorem empty_tag_keeps_all (now : Z) (tags : list string) (data : list Report) :
  In "" tags ->
  (forall report, In report data -> keywords report <> []) ->
  filterByTags tags data = data
  /\ generateMockReports now tags = mockData now.
Proof.
  intros Hin Hkw.
  assert (Hall : forall d : list Report,
             (forall report, In report d -> keywords report <> []) ->
             filterByTags tags d = d).
  { intros d Hd. unfold filterByTags. destruct tags as [|t tags]; [contradiction|].
    replace (0 <? Z.of_nat (length (t :: tags))) with true
      by (symmetry; apply Z.ltb_lt; simpl length; lia).
    induction d as [|r d IH]; [reflexivity|]. cbn [List.filter].
    assert (Hr : matchesTags (t :: tags) r = true).
    { unfold matchesTags. apply existsb_exists. exists "". split; [assumption|].
      destruct (keywords r) as [|k ks] eqn:Hk.
      - exfalso. apply (Hd r); [now left | assumption].
      - simpl. now rewrite includes_empty. }
    rewrite Hr. f_equal. apply IH. intros report H. apply Hd. now right. }
  split; [now apply Hall|].
  apply Hall. unfold mockData. intros report H. simpl in H.
  repeat (destruct H as [<- | H]; [discriminate|]). contradiction.
Qed.

End FeedMore.

(** ** The feed route *)

Section Split.

Import SocialMediaRoute.

Lemma split_cons (sep : ascii) (s : string) :
  exists piece pieces, split sep s = piece :: pieces.
Proof.
  induction s as [|c s (piece & pieces & IH)]; simpl; [now eexists _, _|].
  destruct (Ascii.eqb c sep); [now eexists _, _|]. rewrite IH. now eexists _, _.
Qed.

Lemma join_cons (sep piece : string) (pieces : list string) :
  JsString.join sep (piece :: pieces)
  = match pieces with
    | [] => piece
    | _ :: _ => piece ++ sep ++ JsString.join sep pieces
    end.
Proof. destruct pieces; reflexivity. Qed.

Lemma join_split (sep : ascii) (s : string) :
  JsString.join (String sep "") (split sep s) = s.
Proof.
  induction s as [|c s IH]; [reflexivity|]. cbn [split].
  destruct (split_cons sep s) as (piece & pieces & Hs). rewrite Hs in *.
  destruct (Ascii.eqb_spec c sep) as [-> | Hne].
  - rewrite (join_cons _ "" (piece :: pieces)). now rewrite IH.
  - rewrite join_cons. rewrite join_cons in IH.
    destruct pieces; [now rewrite IH|]. now rewrite <- IH.
Qed.

Lemma split_pieces_free (sep : ascii) (s : string) :
  forallb (freeOf sep) (split sep s) = true.
Proof.
  induction s as [|c s IH]; [reflexivity|]. cbn [split].
  destruct (Ascii.eqb c sep) eqn:Hc; [exact IH|].
  destruct (split_cons sep s) as (piece & pieces & Hs). rewrite Hs in *.
  cbn [forallb freeOf] in *. now rewrite Hc.
Qed.

Lemma split_free_prefix (sep : ascii) (x rest : string) :
  freeOf sep x = true ->
  split sep (x ++ String sep rest) = x :: split sep rest.
Proof.
  induction x as [|c x IH]; simpl; intros Hx.
  - now rewrite Ascii.eqb_refl.
  - apply andb_true_iff in Hx as [Hc Hx]. apply negb_true_iff in Hc.
    now rewrite Hc, IH.
Qed.

Lemma split_free (sep : ascii) (x : string) :
  freeOf sep x = true -> split sep x = [x].
Proof.
  induction x as [|c x IH]; simpl; intros Hx; [reflexivity|].
  apply andb_true_iff in Hx as [Hc Hx]. apply negb_true_iff in Hc.
  now rewrite Hc, IH.
Qed.

(** X18. [split] and [join] are inverse: joining the pieces of a text gives
    the text back, the pieces never contain the separator and there is at
    least one; and a non-empty list of separator-free pieces is what
    [split] makes of its [join]. *)
Theorem split_join_round_trip (sep : ascii) (s : string) (pieces : list string) :
  JsString.join (String sep "") (split sep s) = s
  /\ split sep s <> []
  /\ forallb (freeOf sep) (split sep s) = true
  /\ (pieces <> [] -> forallb (freeOf sep) pieces = true ->
      split sep (JsString.join (String sep "") pieces) = pieces).
Proof.
  split; [apply join_split|]. split.
  { destruct (split_cons sep s) as (p & ps & ->). discriminate. }
  split; [apply split_pieces_free|].
  induction pieces as [|x rest IH]; [contradiction|]. intros _ Hfree.
  cbn [forallb] in Hfree. apply andb_true_iff in Hfree as [Hx Hrest].
  rewrite join_cons. destruct rest as [|y rest]; [now apply split_free|].
  change (String sep "" ++ JsString.join (String sep "") (y :: rest))
    with (String sep (JsString.join (String sep "") (y :: rest))).
  rewrite split_free_prefix by assumption. f_equal. now apply IH.
Qed.

End Split.

Section FeedRoute.

Import SocialMediaRoute.

(** The handler in one piece. *)
Lemma getSocialMedia_cases (E : Env) (clock : Clock) (disasterId : string)
    (tags : option string) (storedTags : option (list string)) (w : World) :
  let searchTags :=
    match tags with
    | Some query => if JsString.truthy query then split "," query else default [] storedTags
    | None => default [] storedTags
    end in
  let fetch := SocialMediaService.fetchSocialMediaReports E (feedGet clock)
                 (feedGen clock) (feedSet clock) disasterId searchTags w in
  getSocialMedia E clock disasterId tags (Some storedTags) w
  = (match result fetch with
     | VReports found =>
         let update := {| disaster_id := disasterId; reports := found;
                          priority_alerts := SocialMediaService.detectPriorityAlerts found |} in
         (Feed update (answered clock),
          if 0 <? Z.of_nat (length found)
          then [ {| room := SocketIO.roomOf disasterId; payload := update |} ]
          else [])
     | _ => (ServerError, [])
     end, world fetch, calls fetch).
Proof.
  cbv zeta. unfold getSocialMedia, bind.
  destruct (SocialMediaService.fetchSocialMediaReports _ _ _ _ _ _ w) as [[v w1] calls1].
  cbn [result world calls fst snd].
  destruct v; unfold ret; now rewrite app_nil_r.
Qed.

Lemma emitTo_subscribed (events : list SocketIO.ClientEvent) (s X : string) :
  s ∈ SocketIO.emitTo (SocketIO.run events) (SocketIO.roomOf X)
  <-> SocketIO.subscribed (rev events) s X = true.
Proof.
  destruct (run_state events s) as [Hc Hr].
  unfold SocketIO.emitTo. rewrite elem_of_filter, Hr, Hc. split.
  - now intros [H _].
  - intros H. split; [assumption|]. now apply subscribed_isConnected in H.
Qed.

(** X19. The feed route emits at most one event, only with a non-empty
    feed, only to the room of the disaster asked for, with the alerts
    computed from the very reports it carries; the sockets it reaches are
    those subscribed to that disaster. A request for an unknown disaster is
    answered 404 without touching the cache or emitting. *)
Theorem feed_route_emission (E : Env) (clock : Clock) (disasterId : string)
    (tags : option string) (disaster : option (option (list string))) (w : World) :
  let run := getSocialMedia E clock disasterId tags disaster w in
  (forall e, In e (snd (result run)) ->
     snd (result run) = [e]
     /\ fst (result run) = Feed (payload e) (answered clock)
     /\ room e = SocketIO.roomOf disasterId
     /\ disaster_id (payload e) = disasterId
     /\ reports (payload e) <> []
     /\ priority_alerts (payload e)
        = SocialMediaService.detectPriorityAlerts (reports (payload e))
     /\ forall events s,
          s ∈ SocketIO.emitTo (SocketIO.run events) (room e)
          <-> SocketIO.subscribed (rev events) s disasterId = true)
  /\ (disaster = None ->
      run = (NotFound "Disaster not found", [], w, [])).
Proof.
  cbv zeta. split; [|now intros ->].
  destruct disaster as [storedTags|]; [|intros e []].
  rewrite getSocialMedia_cases. cbv zeta. cbn [result fst snd].
  destruct (result (SocialMediaService.fetchSocialMediaReports _ _ _ _ _ _ w))
    as [| | | | | |found]; try (intros e []).
  cbn [fst snd]. destruct found as [|r found]; [intros e []|].
  cbn [length]. replace (0 <? Z.of_nat (S (length found))) with true
    by (symmetry; apply Z.ltb_lt; lia).
  intros e [<- | []]. cbn [room payload disaster_id reports priority_alerts].
  repeat split; try discriminate; apply emitTo_subscribed.
Qed.

End FeedRoute.

(** ** More on the geocode route *)

Section RouteMore.

Import GeocodeRoute.

(** The handler when the request names a location. *)
Lemma postGeocode_by_location (E : Env) (clock : Clock) (body : Body)
    (name : string) (w : World) :
  location_name body = Some name ->
  JsString.truthy name = true ->
  postGeocode E clock body w =
    if String.eqb name "Location extraction failed"
    then ({| status := 422;
             json := ExtractionFailed "Could not extract location from description"
                       (Some name) |}, w, [])
    else
      let geo := GeocodingService.geocodeLocation E (geocodeGet clock)
                   (geocodeSet clock) name w in
      (match result geo with
       | Some c =>
           if truthy c
           then {| status := 200;
                   json := Geocoded (description body) name c (answered clock) |}
           else {| status := 422;
                   json := GeocodeFailed "Could not geocode location" name |}
       | None =>
           {| status := 422; json := GeocodeFailed "Could not geocode location" name |}
       end, world geo, calls geo).
Proof.
  intros Hname Htruthy. cbv zeta. unfold postGeocode, bind, ret.
  rewrite Hname. cbn [given]. rewrite Htruthy. cbn [negb andb].
  rewrite andb_false_r.
  destruct (description body) as [text|]; rewrite ?Htruthy; cbn [negb andb orb];
    (destruct (String.eqb name "Location extraction failed"); [reflexivity|]);
    (destruct (GeocodingService.geocodeLocation E (geocodeGet clock) (geocodeSet clock)
                 name w) as [[[c|] w2] calls2];
     cbn [result world calls fst snd]; [destruct (truthy c)|]; simpl;
     now rewrite ?app_nil_r).
Qed.

Lemma geocodeLocation_calls (E : Env) (nowGet nowSet : Z) (loc : string) (w : World)
    (e : Event) :
  In e (calls (GeocodingService.geocodeLocation E nowGet nowSet loc w)) ->
  match e with
  | NerRequest _ | GenerateMockReports _ => False
  | CacheSelect key | CacheDelete key | CacheUpsert key _ =>
      key = GeocodingService.cacheKey loc
  | GeocodeWithGoogle l | GeocodeWithNominatim l => l = loc
  end.
Proof.
  rewrite geocodeLocation_cases. cbv zeta.
  destruct (passes _);
    [|destruct (result (GeocodingService.geocodeWithGoogle E loc w));
      [|destruct (result (GeocodingService.geocodeWithNominatim E loc w))]];
    cbn [calls snd]; rewrite ?in_app_iff; cbn [In]; intros H;
    repeat match goal with
           | H : _ \/ _ |- _ => destruct H as [H | H]
           | H : In _ (calls (CacheService.get _ _ _)) |- _ =>
               apply calls_get in H as [-> | ->]
           | H : In _ (calls (CacheService.set _ _ _ _ _ _)) |- _ =>
               apply calls_set in H as [? ->]
           | H : _ = e |- _ => subst e
           | H : False |- _ => contradiction
           end; reflexivity.
Qed.

(** X20. A request that names a location is never sent to the extraction:
    whatever its description, the handler neither asks the model nor reads
    the extraction cache, every call it makes is about that location, and
    the answer is 200 exactly when the resolver returns coordinates. The
    sentinel text given as the location is refused (422) without any call. *)
Theorem named_location_skips_extraction (E : Env) (clock : Clock) (body : Body)
    (name : string) (w : World) :
  location_name body = Some name ->
  JsString.truthy name = true ->
  let run := postGeocode E clock body w in
  (forall e, In e (calls run) ->
     match e with
     | NerRequest _ | GenerateMockReports _ => False
     | CacheSelect key | CacheDelete key | CacheUpsert key _ =>
         key = GeocodingService.cacheKey name
     | GeocodeWithGoogle l | GeocodeWithNominatim l => l = name
     end)
  /\ (name = GeminiService.failureSentinel ->
      status (result run) = 422 /\ calls run = [] /\ world run = w)
  /\ (name <> GeminiService.failureSentinel ->
      (status (result run) = 200
       <-> passes (result (GeocodingService.geocodeLocation E (geocodeGet clock)
                             (geocodeSet clock) name w)) = true)
      /\ (status (result run) = 200 \/ status (result run) = 422)).
Proof.
  intros Hname Htruthy. cbv zeta.
  rewrite (postGeocode_by_location E clock body name w Hname Htruthy).
  unfold GeminiService.failureSentinel.
  destruct (String.eqb_spec name "Location extraction failed") as [-> | Hne].
  - split; [intros e []|]. split; [now intros _ | now intros H].
  - cbv zeta. cbn [result world calls fst snd]. split; [|split; [now intros H|]].
    + intros e. apply geocodeLocation_calls.
    + intros _.
      destruct (result (GeocodingService.geocodeLocation E _ _ name w)) as [c|];
        cbn [passes]; [destruct (truthy c)|]; cbn [status];
        (split; [split; intros H; (reflexivity || discriminate H) | auto]).
Qed.

(** X21. A 200 answer carries what the resolver returned in this run for
    the location it reports: the location is the one named in the request,
    or else the one extracted from its description, the coordinates are the
    result of the handler's call of [geocodeLocation] for it, and the
    handler does nothing after that call. A request with neither a
    description nor a location name is answered 400 without any call. *)
Theorem geocoded_answer_is_resolved (E : Env) (clock : Clock) (body : Body) (w : World) :
  let run := postGeocode E clock body w in
  (forall original loc c stamp,
     json (result run) = Geocoded original loc c stamp ->
     status (result run) = 200
     /\ original = description body
     /\ stamp = answered clock
     /\ truthy c = true
     /\ ((location_name body = Some loc
          /\ GeocodingService.geocodeLocation E (geocodeGet clock) (geocodeSet clock) loc w
             = (Some c, world run, calls run))
         \/ (given (location_name body) = false
             /\ exists text,
                  description body = Some text
                  /\ let ex := GeminiService.extractLocation E (extractGet clock)
                                 (extractSet clock) text w in
                     let geo := GeocodingService.geocodeLocation E (geocodeGet clock)
                                  (geocodeSet clock) loc (world ex) in
                     result ex = VLocation loc
                     /\ result geo = Some c
                     /\ world run = world geo
                     /\ calls run = (calls ex ++ calls geo)%list)))
  /\ (given (description body) = false -> given (location_name body) = false ->
      run = ({| status := 400; json := ErrorJson "Description or location_name is required" |},
             w, [])).
Proof.
  cbv zeta. split.
  - intros original loc c stamp.
    destruct (given (location_name body)) eqn:Hn.
    + destruct (location_name body) as [name|] eqn:Hname; [|discriminate].
      cbn [given] in Hn.
      rewrite (postGeocode_by_location E clock body name w Hname Hn).
      destruct (String.eqb name "Location extraction failed"); [discriminate|].
      cbv zeta. cbn [result world calls fst snd].
      destruct (GeocodingService.geocodeLocation E _ _ name w) as [[[x|] w2] calls2] eqn:Hgeo;
        cbn [result world calls fst snd]; [destruct (truthy x) eqn:Hx|]; cbn [json status];
        try discriminate.
      intros [= <- <- <- <-]. repeat split; try assumption.
      left. split; [reflexivity | exact Hgeo].
    + destruct (given (description body)) eqn:Hd.
      * destruct (description body) as [text|] eqn:Hdesc; [|discriminate].
        cbn [given] in Hd.
        rewrite (postGeocode_by_description E clock body text w Hn Hdesc Hd).
        cbv zeta. cbn [result world calls fst snd].
        destruct (GeminiService.extractLocation E _ _ text w) as [[v w1] calls1] eqn:Hex.
        cbn [result world calls fst snd].
        destruct v as [| | | | |l|]; cbn [locationField]; try discriminate.
        destruct (negb (JsString.truthy l) || String.eqb l _); [discriminate|].
        cbn [fst snd].
        destruct (GeocodingService.geocodeLocation E _ _ l w1) as [[[x|] w2] calls2] eqn:Hgeo;
          cbn [result world calls fst snd]; [destruct (truthy x) eqn:Hx|]; cbn [json status];
          try discriminate.
        intros [= <- <- <- <-]. repeat split; try assumption.
        right. split; [reflexivity|]. exists text. split; [reflexivity|].
        rewrite Hex. cbn [result world calls fst snd].
        rewrite Hgeo. cbn [result world calls fst snd]. repeat split.
      * unfold postGeocode. rewrite Hd, Hn. discriminate.
  - intros Hd Hn. unfold postGeocode. now rewrite Hd, Hn.
Qed.

End RouteMore.

(** ** More on the rooms *)

Section Rooms.

Import SocketIO.

Lemma server_eq (io io' : Server) :
  connected io = connected io' -> sids io = sids io' -> io = io'.
Proof. destruct io, io'. simpl. now intros -> ->. Qed.

Lemma roomsOf_join (io : Server) (s room s' : string) :
  roomsOf (join io s room) s'
  = if decide (s = s') then {[room]} ∪ roomsOf io s else roomsOf io s'.
Proof.
  unfold roomsOf at 1, join; cbn [sids]. destruct (decide (s = s')) as [<- | Hne].
  - now rewrite lookup_insert_eq.
  - now rewrite lookup_insert_ne.
Qed.

Lemma handle_join (io : Server) (s d : string) :
  handle io (JoinDisaster s d)
  = if bool_decide (s ∈ connected io) then join io s (roomOf d) else io.
Proof.
  cbn [handle]. destruct (decide (s ∈ connected io)) as [H | H].
  - now rewrite bool_decide_eq_true_2.
  - now rewrite bool_decide_eq_false_2.
Qed.

Lemma join_join_same (io : Server) (s room : string) :
  join (join io s room) s room = join io s room.
Proof.
  apply server_eq; [reflexivity|]. cbn [join sids].
  rewrite roomsOf_join, decide_True by reflexivity.
  rewrite insert_insert_eq. f_equal. now rewrite (assoc_L (∪)), (idemp_L (∪)).
Qed.

Lemma join_join_comm (io : Server) (s room s' room' : string) :
  join (join io s room) s' room' = join (join io s' room') s room.
Proof.
  apply server_eq; [reflexivity|]. cbn [join sids]. rewrite !roomsOf_join.
  destruct (decide (s = s')) as [<- | Hne].
  - rewrite decide_True by reflexivity. rewrite !insert_insert_eq. f_equal.
    rewrite !(assoc_L (∪)). f_equal. apply (comm_L (∪)).
  - rewrite !decide_False by congruence. now apply insert_insert_ne.
Qed.

(** X22. [join_disaster] is idempotent, and the order of two joins does not
    matter. *)
Theorem join_disaster_idempotent (io : Server) (s s' d d' : string) :
  handle (handle io (JoinDisaster s d)) (JoinDisaster s d) = handle io (JoinDisaster s d)
  /\ handle (handle io (JoinDisaster s d)) (JoinDisaster s' d')
     = handle (handle io (JoinDisaster s' d')) (JoinDisaster s d).
Proof.
  pose proof (handle_join io s d) as H1. pose proof (handle_join io s' d') as H2.
  remember (bool_decide (s ∈ connected io)) as b1 eqn:E1.
  remember (bool_decide (s' ∈ connected io)) as b2 eqn:E2.
  rewrite H1, H2. clear H1 H2. split.
  - destruct b1.
    + rewrite handle_join. change (connected (join io s (roomOf d))) with (connected io).
      rewrite <- E1. apply join_join_same.
    + rewrite handle_join. now rewrite <- E1.
  - destruct b1, b2; rewrite !handle_join;
      repeat match goal with
             | |- context [connected (join ?i ?x ?r)] =>
                 change (connected (join i x r)) with (connected i)
             end;
      rewrite <- ?E1, <- ?E2; [apply join_join_comm | reflexivity..].
Qed.

(** X23. A disconnection ends every subscription: afterwards the socket is
    reached by no emission, scoped or global, and after a new connection by
    global emissions only, until it joins again. *)
Theorem disconnect_ends_subscriptions (io : Server) (s room : string) :
  (s ∉ emitTo (handle io (Disconnect s)) room)
  /\ (s ∉ emitAll (handle io (Disconnect s)))
  /\ (s ∈ emitAll (handle (handle io (Disconnect s)) (Connection s)))
  /\ (s ∉ emitTo (handle (handle io (Disconnect s)) (Connection s)) room).
Proof.
  unfold emitTo, emitAll. cbn [handle connected sids]. repeat split.
  - rewrite elem_of_filter, elem_of_difference, elem_of_singleton. tauto.
  - rewrite elem_of_difference, elem_of_singleton. tauto.
  - rewrite elem_of_union, elem_of_singleton. now left.
  - rewrite elem_of_filter. unfold roomsOf; cbn [sids].
    rewrite lookup_insert_eq. cbn [default]. intros [H _].
    now apply not_elem_of_empty in H.
Qed.

(** The socket an event comes from. *)
Lemma handle_other (io : Server) (e : ClientEvent) (s : string) :
  match e with Connection c | JoinDisaster c _ | Disconnect c => c end <> s ->
  (s ∈ connected (handle io e) <-> s ∈ connected io)
  /\ roomsOf (handle io e) s = roomsOf io s.
Proof.
  intros Hne. destruct e as [c | c d | c].
  - cbn [handle connected]. unfold roomsOf; cbn [sids].
    rewrite lookup_insert_ne by assumption. split; [|reflexivity].
    rewrite elem_of_union, elem_of_singleton. split; [|now right].
    intros [H | H]; [now contradiction Hne | assumption].
  - rewrite handle_join. destruct (bool_decide (c ∈ connected io)); [|now split].
    rewrite roomsOf_join, decide_False by assumption. now split.
  - cbn [handle connected]. unfold roomsOf; cbn [sids].
    rewrite lookup_delete_ne by assumption. split; [|reflexivity].
    rewrite elem_of_difference, elem_of_singleton. split; [now intros [H _]|].
    intros H. split; [assumption | congruence].
Qed.

(** X24. What a socket receives depends on its own events only: an event
    of another socket changes neither the scoped nor the global emissions
    that reach it. *)
Theorem other_sockets_do_not_matter (io : Server) (e : ClientEvent) (s room : string) :
  match e with Connection c | JoinDisaster c _ | Disconnect c => c end <> s ->
  (s ∈ emitTo (handle io e) room <-> s ∈ emitTo io room)
  /\ (s ∈ emitAll (handle io e) <-> s ∈ emitAll io).
Proof.
  intros Hne. destruct (handle_other io e s Hne) as [Hc Hr].
  unfold emitTo, emitAll. rewrite !elem_of_filter, Hr, Hc. tauto.
Qed.

End Rooms.

(** ** Authentication and ownership *)

Section Ownership.

Import DisasterRoutes.

Lemma denied_spec (row : Disaster) (user : Middleware.User) :
  denied row user = false
  <-> Middleware.id user = Some (owner_id row) \/ Middleware.role user = Some "admin".
Proof.
  unfold denied. rewrite andb_false_iff, !negb_false_iff, !bool_decide_eq_true.
  reflexivity.
Qed.

(** X25. A request without an [x-user-id] header, or with an empty one, is
    authenticated as the admin [netrunnerX]; so it is never refused by the
    ownership check: [PUT] and [DELETE] do not answer 403 to it, whoever
    owns the disaster. *)
Theorem no_header_is_admin (header : option string) (now : Z) (body : Changes)
    (disasterId : string) (existing : option Disaster)
    (dbUpdate : UpdateData -> string + list Disaster) (dbDelete : option string) :
  header = None \/ header = Some "" ->
  exists user,
    Middleware.authenticateUser header = Some user
    /\ Middleware.id user = Some "netrunnerX"
    /\ Middleware.role user = Some "admin"
    /\ (forall message, answer (putDisaster user now body existing dbUpdate)
                        <> Status 403 message)
    /\ (forall message, answer (deleteDisaster user disasterId existing dbDelete)
                        <> Status 403 message).
Proof.
  intros Hh. exists (Middleware.mockUser "netrunnerX" "admin").
  split; [destruct Hh as [-> | ->]; reflexivity|].
  split; [reflexivity|]. split; [reflexivity|].
  assert (Hok : forall row, denied row (Middleware.mockUser "netrunnerX" "admin") = false).
  { intros row. apply denied_spec. now right. }
  split; intros message; unfold putDisaster, deleteDisaster;
    destruct existing as [row|]; try discriminate; rewrite Hok.
  - destruct (audit_trail row); [|discriminate].
    destruct (dbUpdate _); discriminate.
  - destruct dbDelete; discriminate.
Qed.

(** X26. The ownership check: [PUT] and [DELETE] answer 404 when the
    disaster is not found and 403 exactly when it is found and the user is
    neither its owner nor an admin; in both cases nothing is written to the
    table and nothing is emitted. *)
Theorem ownership_check (user : Middleware.User) (now : Z) (body : Changes)
    (disasterId : string) (existing : option Disaster)
    (dbUpdate : UpdateData -> string + list Disaster) (dbDelete : option string) :
  let put := putDisaster user now body existing dbUpdate in
  let del := deleteDisaster user disasterId existing dbDelete in
  (existing = None <-> answer put = Status 404 "Disaster not found")
  /\ (existing = None <-> answer del = Status 404 "Disaster not found")
  /\ ((exists row, existing = Some row
                   /\ Middleware.id user <> Some (owner_id row)
                   /\ Middleware.role user <> Some "admin")
      <-> answer put = Status 403 "Access denied")
  /\ (answer put = Status 403 "Access denied" <-> answer del = Status 403 "Access denied")
  /\ (forall code message,
        answer put = Status code message -> code = 403 \/ code = 404 ->
        written put = None /\ emitted put = [])
  /\ (forall code message,
        answer del = Status code message -> code = 403 \/ code = 404 ->
        written del = None /\ emitted del = []).
Proof.
  cbv zeta. unfold putDisaster, deleteDisaster.
  destruct existing as [row|].
  - destruct (denied row user) eqn:Hd.
    + assert (Hno : Middleware.id user <> Some (owner_id row)
                    /\ Middleware.role user <> Some "admin").
      { unfold denied in Hd. apply andb_true_iff in Hd as [H1 H2].
        apply negb_true_iff, bool_decide_eq_false in H1, H2. now split. }
      cbn [answer written emitted].
      repeat split; intros; try discriminate; try reflexivity; eauto.
    + apply denied_spec in Hd.
      destruct (audit_trail row) as [trail|]; [destruct (dbUpdate _)|];
        destruct dbDelete; cbn [answer written emitted];
        repeat split; intros; try discriminate; try reflexivity;
        repeat match goal with
               | H : exists _, _ |- _ => destruct H as (? & [= <-] & ? & ?)
               | H : Status _ _ = Status _ _ |- _ => injection H as <- <-
               | H : _ \/ _ |- _ => destruct H
               end; try discriminate; try tauto.
  - cbn [answer written emitted].
    repeat split; intros; try discriminate; try reflexivity;
      repeat match goal with
             | H : exists _, _ |- _ => destruct H as (? & ? & ? & ?)
             end; try discriminate.
Qed.

Lemma changedKeys_spec (body : Changes) :
  (In "title" (changedKeys body) <-> newTitle body <> None)
  /\ (In "location_name" (changedKeys body) <-> newLocationName body <> None)
  /\ (In "description" (changedKeys body) <-> newDescription body <> None)
  /\ (In "tags" (changedKeys body) <-> newTags body <> None).
Proof.
  unfold changedKeys.
  destruct (newTitle body), (newLocationName body), (newDescription body),
    (newTags body); cbn [defined app In];
    repeat split; intros H; try discriminate; try congruence;
    repeat (destruct H as [H | H]; try discriminate H); auto 6.
Qed.

(** X27. An update keeps the audit history: what [PUT] writes carries the
    earlier trail followed by exactly one new entry, by the user, at the
    time of the request, naming exactly the fields present in the body; and
    the update event is emitted only when the database accepted the
    write. *)
Theorem update_appends_audit_entry (user : Middleware.User) (now : Z) (body : Changes)
    (existing : option Disaster) (dbUpdate : UpdateData -> string + list Disaster)
    (data : UpdateData) :
  written (putDisaster user now body existing dbUpdate) = Some data ->
  (exists row trail,
     existing = Some row /\ audit_trail row = Some trail
     /\ fields data = body
     /\ new_audit_trail data
        = (trail ++ [ {| action := "update"; user_id := Middleware.id user;
                         timestamp := now; changes := Some (changedKeys body) |} ])%list)
  /\ (In "title" (changedKeys body) <-> newTitle body <> None)
  /\ (In "location_name" (changedKeys body) <-> newLocationName body <> None)
  /\ (In "description" (changedKeys body) <-> newDescription body <> None)
  /\ (In "tags" (changedKeys body) <-> newTags body <> None)
  /\ (emitted (putDisaster user now body existing dbUpdate) <> [] ->
      exists rows, dbUpdate data = inr rows).
Proof.
  intros Hw. unfold putDisaster in *.
  destruct existing as [row|]; [|discriminate].
  destruct (denied row user); [discriminate|].
  destruct (audit_trail row) as [trail|] eqn:Ht; [|discriminate].
  destruct (changedKeys_spec body) as (Ha & Hb & Hc & Hd).
  destruct (dbUpdate _) as [message | rows] eqn:Hdb;
    cbn [written emitted] in *; injection Hw as <-;
    (split; [exists row, trail; repeat split; assumption|]);
    repeat (split; [assumption|]).
  - intros H. now contradiction H.
  - intros _. now exists rows.
Qed.

End Ownership.

Section Authentication.

Import DisasterRoutes.

Lemma ownProperty_mockUsers (value : string) :
  Middleware.ownProperty Middleware.mockUsers value
  = if String.eqb "netrunnerX" value then Some (Middleware.mockUser "netrunnerX" "admin")
    else if String.eqb "reliefAdmin" value then Some (Middleware.mockUser "reliefAdmin" "admin")
    else if String.eqb "citizen1" value
         then Some (Middleware.mockUser "citizen1" "contributor")
         else None.
Proof. reflexivity. Qed.

Lemma existsb_inherited (value : string) :
  existsb (String.eqb value) Middleware.inherited = true <-> In value Middleware.inherited.
Proof.
  rewrite existsb_exists. split.
  - intros (x & Hin & Hx). apply String.eqb_eq in Hx. now subst.
  - intros H. exists value. split; [assumption | apply String.eqb_refl].
Qed.

(** X28. Who passes [authenticateUser]: the answer is 401 exactly for a
    non-empty header that names neither a mock user nor a property that the
    user table inherits from [Object.prototype]. A header that names such a
    property (say [constructor]) passes, with a user that has no id and no
    role, which the ownership check refuses on every disaster. *)
Theorem authentication_cases (header : option string) :
  (Middleware.authenticateUser header = None
   <-> exists value,
         header = Some value /\ value <> ""
         /\ ~ In value ["netrunnerX"; "reliefAdmin"; "citizen1"]
         /\ ~ In value Middleware.inherited)
  /\ (forall value,
        header = Some value -> In value Middleware.inherited ->
        Middleware.authenticateUser header
          = Some {| Middleware.id := None; Middleware.role := None |}
        /\ forall row, denied row {| Middleware.id := None; Middleware.role := None |} = true).
Proof.
  split.
  - unfold Middleware.authenticateUser. destruct header as [value|].
    + destruct value as [|c value].
      * split; [discriminate|]. intros (v & [= <-] & H & _). now contradiction H.
      * cbn [JsString.truthy]. set (v := String c value).
        unfold Middleware.lookup. rewrite ownProperty_mockUsers.
        destruct (String.eqb_spec "netrunnerX" v) as [H1 | H1];
          [split; [discriminate|]; intros (x & [= <-] & _ & Hn & _); simpl in Hn; tauto|].
        destruct (String.eqb_spec "reliefAdmin" v) as [H2 | H2];
          [split; [discriminate|]; intros (x & [= <-] & _ & Hn & _); simpl in Hn; tauto|].
        destruct (String.eqb_spec "citizen1" v) as [H3 | H3];
          [split; [discriminate|]; intros (x & [= <-] & _ & Hn & _); simpl in Hn; tauto|].
        destruct (existsb (String.eqb v) Middleware.inherited) eqn:Hi.
        -- split; [discriminate|]. intros (x & [= <-] & _ & _ & Hn).
           apply existsb_inherited in Hi. contradiction.
        -- split; [|reflexivity]. intros _. exists v. split; [reflexivity|].
           split; [discriminate|]. split.
           ++ simpl. intros [H | [H | [H | []]]]; congruence.
           ++ intros H. apply existsb_inherited in H. congruence.
    + split; [discriminate|]. intros (v & H & _). discriminate.
  - intros value -> Hin. split.
    + unfold Middleware.inherited in Hin. simpl in Hin.
      repeat (destruct Hin as [<- | Hin]; [reflexivity|]). contradiction.
    + intros row. reflexivity.
Qed.

End Authentication.

(** * The further properties on sample inputs *)

Section MoreWitnesses.

Import Sample MoreSamples.

Lemma clockReading_t1 : clockReading t1.
Proof. unfold clockReading, t1, JsDate.msPerHour. lia. Defined.

Lemma steadyClock_t1 : steadyClock (LocalTZA env) t1.
Proof. unfold steadyClock, JsDate.UTC, JsDate.LocalTime, env, LocalTZA. lia. Defined.

(** A value written at [t0] is served one minute later. In New York, a value
    written at 01:30 before the clocks go back expires at 02:30 on the wall
    clock, two hours later: it is served ninety minutes after the write and
    gone after two hours. *)
Lemma set_get_round_trip_witness :
  let inNewYork := world (CacheService.set newYorkEnv before0 "k" (VString "v")
                            CacheService.defaultTtlHours emptyWorld) in
  reachable emptyWorld = true
  /\ result (CacheService.get t1 "k"
               (world (CacheService.set env t0 "k" (VString "v")
                         CacheService.defaultTtlHours emptyWorld)))
     = Some (VString "v")
  /\ result (CacheService.get (before0 + 5400000) "k" inNewYork) = Some (VString "v")
  /\ result (CacheService.get (before0 + 7200001) "k" inNewYork) = None.
Proof.
  cbv zeta. split; [reflexivity|].
  destruct (set_get_round_trip env t0 t1 (t0 + 3600000) "k" (VString "v") emptyWorld
              eq_refl eq_refl) as (_ & Hserved & _).
  split; [apply Hserved; unfold t0, t1; lia|].
  destruct (set_get_round_trip newYorkEnv before0 (before0 + 5400000)
              (before0 + 7200000) "k" (VString "v") emptyWorld eq_refl eq_refl)
    as (_ & Hserved' & _).
  split; [apply Hserved'; lia|].
  destruct (set_get_round_trip newYorkEnv before0 (before0 + 7200001)
              (before0 + 7200000) "k" (VString "v") emptyWorld eq_refl eq_refl)
    as (_ & _ & Hgone).
  apply Hgone. lia.
Defined.

Lemma set_overwrites_witness :
  world (CacheService.set env t1 "k" (VString "new") CacheService.defaultTtlHours
           (world (CacheService.set env t0 "k" (VString "old")
                     CacheService.defaultTtlHours emptyWorld)))
  = world (CacheService.set env t1 "k" (VString "new") CacheService.defaultTtlHours
             emptyWorld).
Proof.
  apply (set_overwrites env t0 t1 "k" (VString "old") (VString "new")
           CacheService.defaultTtlHours emptyWorld clockReading_t1 steadyClock_t1).
Defined.

Lemma delete_then_get_witness :
  reachable oneRowWorld = true
  /\ cacheTable oneRowWorld !! "k" = Some row
  /\ result (CacheService.get 0 "k"
               {| cacheTable := cacheTable (world (CacheService.delete "k" oneRowWorld));
                  reachable := true |}) = None.
Proof.
  split; [reflexivity|]. split; [apply lookup_singleton_eq|].
  destruct (delete_then_get "k" oneRowWorld eq_refl) as (_ & Hget & _).
  apply Hget.
Defined.

Lemma cache_fails_soft_witness :
  reachable downWorld = false
  /\ cacheTable downWorld !! "k" = Some row
  /\ result (CacheService.get 0 "k" downWorld) = None.
Proof.
  split; [reflexivity|]. split; [apply lookup_singleton_eq|].
  apply (cache_fails_soft env 0 "k" VNull CacheService.defaultTtlHours downWorld eq_refl).
Defined.

Lemma geocode_served_from_cache_witness :
  let first := GeocodingService.geocodeLocation env t0 t0 "Wall Street" emptyWorld in
  result first = Some (VCoords {| lat := 40.5%float; lng := (-74)%float |})
  /\ GeocodingService.geocodeLocation noKeyEnv t1 t1 "Wall Street" (world first)
     = (Some (VCoords {| lat := 40.5%float; lng := (-74)%float |}), world first,
        [CacheSelect (GeocodingService.cacheKey "Wall Street")]).
Proof.
  cbv zeta. split; [reflexivity|].
  apply (geocode_served_from_cache env noKeyEnv t0 t0 t1 t1 "Wall Street"
           {| lat := 40.5%float; lng := (-74)%float |} emptyWorld
           eq_refl clockReading_t0 steadyClock_t0 eq_refl eq_refl eq_refl).
  unfold t0, t1, JsDate.msPerHour. lia.
Defined.

Lemma geocode_without_cache_witness :
  reachable downWorld = false
  /\ result (GeocodingService.geocodeLocation env t0 t0 "Wall Street" downWorld)
     = Some (VCoords {| lat := 40.5%float; lng := (-74)%float |})
  /\ world (GeocodingService.geocodeLocation env t0 t0 "Wall Street" downWorld) = downWorld.
Proof.
  split; [reflexivity|].
  destruct (geocode_without_cache env t0 t0 "Wall Street" downWorld eq_refl) as [Hres Hw].
  split; [|exact Hw]. rewrite Hres. reflexivity.
Defined.

Lemma geocode_without_google_key_witness :
  googleGeocodeApi noKeyEnv "Wall Street"
    = Some [ {| lat := 40.5%float; lng := (-74)%float |} ]
  /\ result (GeocodingService.geocodeLocation noKeyEnv t0 t0 "Wall Street" emptyWorld)
     = Some (VCoords {| lat := 40.75%float; lng := (-74.125)%float |}).
Proof.
  split; [reflexivity|].
  destruct (geocode_without_google_key noKeyEnv t0 t0 "Wall Street" emptyWorld
              (or_intror (or_intror eq_refl)) eq_refl) as [_ Hres].
  rewrite Hres. reflexivity.
Defined.

Lemma extraction_failure_not_cached_witness :
  let first := GeminiService.extractLocation env t0 t0 "somewhere" emptyWorld in
  nerApi env "somewhere" = None
  /\ result first = VLocation GeminiService.failureSentinel
  /\ In (NerRequest "somewhere")
        (calls (GeminiService.extractLocation env t1 t1 "somewhere" (world first))).
Proof.
  cbv zeta. split; [reflexivity|].
  destruct (extraction_failure_not_cached env env t0 t0 t1 t1 "somewhere" emptyWorld
              eq_refl eq_refl) as (Hres & _ & Hagain).
  split; assumption.
Defined.

Lemma extraction_served_from_cache_witness :
  let text := "Heavy flooding near Wall Street" in
  let first := GeminiService.extractLocation env t0 t0 text emptyWorld in
  result first = VLocation "Wall Street"
  /\ GeminiService.extractLocation noKeyEnv t1 t1 text (world first)
     = (result first, world first, [CacheSelect (GeminiService.cacheKey text)]).
Proof.
  cbv zeta. split; [reflexivity|].
  apply (extraction_served_from_cache env noKeyEnv t0 t0 t1 t1
           "Heavy flooding near Wall Street"
           [ {| entity_group := "LOC"; word := "Wall" |};
             {| entity_group := "LOC"; word := "Street" |} ]
           emptyWorld eq_refl clockReading_t0 steadyClock_t0 eq_refl eq_refl).
  unfold t0, t1, JsDate.msPerHour. lia.
Defined.

Lemma resolutions_do_not_interfere_witness :
  "Brooklyn" <> "Wall Street"
  /\ result (GeocodingService.geocodeLocation env t1 t1 "Wall Street"
               (world (GeocodingService.geocodeLocation env t0 t0 "Brooklyn" emptyWorld)))
     = result (GeocodingService.geocodeLocation env t1 t1 "Wall Street" emptyWorld).
Proof.
  assert (H : "Brooklyn" <> "Wall Street") by discriminate.
  split; [exact H|].
  apply (resolutions_do_not_interfere env env env t0 t0 t1 t1 "Wall Street" "Brooklyn"
           "hello" emptyWorld H).
Defined.

Lemma fresh_location_is_clean_witness :
  nerApi env "hello" = Some []
  /\ exists location,
       result (GeminiService.extractLocation env t0 t0 "hello" emptyWorld)
         = VLocation location
       /\ location <> "".
Proof.
  split; [reflexivity|].
  destruct (fresh_location_is_clean env t0 t0 "hello" [] emptyWorld eq_refl eq_refl)
    as (location & Hres & Hne & _).
  exists location. split; assumption.
Defined.

Lemma mockData_keywords (now : Z) (report : Report) :
  In report (SocialMediaService.mockData now) -> keywords report <> [].
Proof.
  unfold SocialMediaService.mockData. simpl. intros H.
  repeat (destruct H as [<- | H]; [discriminate|]). contradiction.
Defined.

Lemma empty_tag_keeps_all_witness :
  In "" (SocialMediaRoute.split "," "medical,")
  /\ SocialMediaService.generateMockReports t0 (SocialMediaRoute.split "," "medical,")
     = SocialMediaService.mockData t0.
Proof.
  assert (H : In "" (SocialMediaRoute.split "," "medical,")) by (right; now left).
  split; [exact H|].
  apply (empty_tag_keeps_all t0 (SocialMediaRoute.split "," "medical,")
           (SocialMediaService.mockData t0) H (mockData_keywords t0)).
Defined.

Lemma named_location_skips_extraction_witness :
  GeocodeRoute.location_name named = Some "Brooklyn"
  /\ forall text,
       ~ In (NerRequest text) (calls (GeocodeRoute.postGeocode env clock named emptyWorld)).
Proof.
  split; [reflexivity|].
  destruct (named_location_skips_extraction env clock named "Brooklyn" emptyWorld
              eq_refl eq_refl) as [Hcalls _].
  intros text H. exact (Hcalls _ H).
Defined.

Lemma other_sockets_do_not_matter_witness :
  let io := SocketIO.run [ SocketIO.Connection "a"; SocketIO.Connection "b";
                           SocketIO.JoinDisaster "a" "D1" ] in
  "b" <> "a"
  /\ (("a" ∈ SocketIO.emitTo (SocketIO.handle io (SocketIO.Disconnect "b"))
              (SocketIO.roomOf "D1"))
      <-> ("a" ∈ SocketIO.emitTo io (SocketIO.roomOf "D1"))).
Proof.
  intros io. assert (H : "b" <> "a") by discriminate. split; [exact H|].
  apply (other_sockets_do_not_matter io (SocketIO.Disconnect "b") "a"
           (SocketIO.roomOf "D1") H).
Defined.

Lemma no_header_is_admin_witness :
  exists user,
    Middleware.authenticateUser None = Some user
    /\ DisasterRoutes.answer
         (DisasterRoutes.putDisaster user t1 retitle (Some flood) accepting)
       <> DisasterRoutes.Status 403 "Access denied".
Proof.
  destruct (no_header_is_admin None t1 retitle "d1" (Some flood) accepting None
              (or_introl eq_refl)) as (user & Hauth & _ & _ & Hput & _).
  exists user. split; [exact Hauth | apply Hput].
Defined.

Lemma update_appends_audit_entry_witness :
  let data :=
    {| DisasterRoutes.fields := retitle;
       DisasterRoutes.new_audit_trail :=
         [ created;
           {| DisasterRoutes.action := "update";
              DisasterRoutes.user_id := Some "citizen1";
              DisasterRoutes.timestamp := t1;
              DisasterRoutes.changes := Some ["title"; "tags"] |} ] |} in
  DisasterRoutes.written
    (DisasterRoutes.putDisaster citizen1 t1 retitle (Some flood) accepting) = Some data
  /\ (In "title" (DisasterRoutes.changedKeys retitle)
      <-> DisasterRoutes.newTitle retitle <> None).
Proof.
  intros data.
  assert (H : DisasterRoutes.written
                (DisasterRoutes.putDisaster citizen1 t1 retitle (Some flood) accepting)
              = Some data) by reflexivity.
  split; [exact H|].
  destruct (update_appends_audit_entry citizen1 t1 retitle (Some flood) accepting data H)
    as (_ & Htitle & _).
  exact Htitle.
Defined.

Lemma authentication_cases_witness :
  In "constructor" Middleware.inherited
  /\ Middleware.authenticateUser (Some "constructor")
     = Some {| Middleware.id := None; Middleware.role := None |}.
Proof.
  assert (H : In "constructor" Middleware.inherited) by now left.
  split; [exact H|].
  destruct (authentication_cases (Some "constructor")) as [_ Hinherited].
  apply (Hinherited "constructor" eq_refl H).
Defined.

End MoreWitnesses.
